(** * Audio pipeline of onboard-ai: codec, playback scheduler, recovery,
      capture bridge, base64 transport, WAV header, audio contexts and
      analytics store.

    Sources embedded here:
    - [src/lib/audio-recorder.ts]: the [AudioRecorderProcessor] worklet
      ([process], [_convertToInt16]), [arrayBufferToBase64] and the
      [AudioRecorder] class ([start] with its [onmessage] handler, [stop]);
    - [src/lib/analytics/analytics-service.ts], first document: the
      [AnalyticsService] class ([trackEvent], [trackResponseTime],
      [getRecentEvents], [clearAnalytics]); second document: the
      [AudioStreamer] class ([_processPCM16Chunk], [addPCM16],
      [attemptRecovery], [scheduleNextBuffer], [stop], [resume]);
    - [src/lib/audio-utils.ts]: [audioContext], [base64ToArrayBuffer],
      [createWavHeader] with [writeString], [writeInt16], [writeInt32].

    Numbers.  JavaScript numbers are IEEE doubles.  Every finite sample that
    the codec touches is a Float32 value (a dyadic rational with a 24 bit
    mantissa); its products with [0x8000] and [0x7fff] and the quotient of
    an int16 by [32768] are exactly representable, so the codec is embedded
    over [Q] without loss.  The audio clock is embedded over [Q] as well:
    sums of clock readings and buffer durations are taken exactly.

    Clock.  [context.currentTime] is an input.  Every call of a method and
    every timer callback runs to completion at one reading [now] of it.

    Platform.  What the code asks of the browser is recorded next to the
    fields of each object (sources started, timers armed, promises made,
    tracks live), and what the browser may answer (a node constructor that
    throws, a promise that rejects) is an input as well. *)

From Stdlib Require Import ZArith QArith Qminmax Qabs Lqa Lia List Bool.
From Stdlib Require Import Strings.Byte.
Import ListNotations.

Local Open Scope Q_scope.

(* ===================================================================== *)
(** ** Codec *)
(* ===================================================================== *)

Module Codec.

(** [x < y] on numbers, as a boolean. *)
Definition Qltb (x y : Q) : bool := negb (Qle_bool y x).

(** Truncation toward zero, the integer part used by the typed-array
    store conversion. *)
Definition truncate (q : Q) : Z := Z.quot (Qnum q) (Zpos (Qden q)).

(** Storing a finite number into an [Int16Array] element: truncate, reduce
    modulo [2^16], read as signed. *)
Definition ToInt16 (q : Q) : Z :=
  let m := ((truncate q) mod 65536)%Z in
  if (32768 <=? m)%Z then (m - 65536)%Z else m.

(** [Math.max(-1, Math.min(1, x))]. *)
Definition clampSample (x : Q) : Q := Qmax (-1) (Qmin 1 x).

(** One iteration of the loop of [_convertToInt16]:
    [s < 0 ? s * 0x8000 : s * 0x7fff], stored in the [Int16Array]. *)
Definition convertSample (x : Q) : Z :=
  let s := clampSample x in
  ToInt16 (if Qltb s 0 then s * 32768 else s * 32767).

(** [_convertToInt16(float32Buffer)]. *)
Definition _convertToInt16 (float32Buffer : list Q) : list Z :=
  map convertSample float32Buffer.

(** A byte of a buffer, from the low eight bits of an integer. *)
Definition byteOfZ (z : Z) : byte :=
  match Byte.of_N (Z.to_N (z mod 256)) with
  | Some b => b
  | None => "000"%byte
  end.

Definition byteToZ (b : byte) : Z := Z.of_N (Byte.to_N b).

(** [int16Buffer.buffer]: the bytes of the [Int16Array], low byte first
    (the byte order of the platforms the worklet runs on, and the one
    [getInt16(offset, true)] reads). *)
Fixpoint int16Bytes (int16Buffer : list Z) : list byte :=
  match int16Buffer with
  | [] => []
  | v :: rest =>
      let u := (v mod 65536)%Z in
      byteOfZ u :: byteOfZ (u / 256) :: int16Bytes rest
  end.

(** [dataView.getInt16(i * 2, true)] on the two bytes at that offset. *)
Definition getInt16 (lo hi : byte) : Z :=
  let u := (byteToZ lo + 256 * byteToZ hi)%Z in
  if (32768 <=? u)%Z then (u - 65536)%Z else u.

(** [_processPCM16Chunk(chunk)]: [floor(chunk.length / 2)] samples, each
    [int16 / 32768].  With an odd length the last iteration reads past the
    end, [getInt16] throws, the [catch] logs it and nothing is stored: the
    trailing byte yields no sample.  [chunk] views its whole buffer from
    offset 0, as the [new Uint8Array(audioData)] of the caller does. *)
Fixpoint _processPCM16Chunk (chunk : list byte) : list Q :=
  match chunk with
  | lo :: hi :: rest => (inject_Z (getInt16 lo hi) / 32768) :: _processPCM16Chunk rest
  | _ => []
  end.

(** The two codecs composed, per sample array. *)
Definition roundTrip (x : list Q) : list Q :=
  _processPCM16Chunk (int16Bytes (_convertToInt16 x)).

End Codec.

(* ===================================================================== *)
(** ** Playback scheduler and recovery: class [AudioStreamer] *)
(* ===================================================================== *)

Module Streamer.
Import Codec.

(** A [Float32Array] of samples. *)
Definition Frame := list Q.

(** The [console.error] call sites of the class. *)
Inductive ConsoleError :=
| ErrAddingPCM16         (* 'Error adding PCM16 data:' *)
| ErrStartingSource      (* "Error starting audio source:" *)
| MaxRecoveryReached.    (* "Max recovery attempts reached, ..." *)

(** What the platform does during one pass of the body of the scheduling
    loop: everything works, [source.start] throws (caught inside the loop),
    or building the buffer or the source node throws (not caught there). *)
Inductive Outcome := Plays | StartThrows | NodeThrows.

(** One successful [source.start(startTime)]: the buffer, its start time,
    the value of [context.currentTime] at the call and the gain node the
    source was connected to. *)
Record StartedSource := {
  buffer : Frame;
  when : Q;
  clock : Q;
  output : nat
}.

(** The fields of the object. [checkInterval] is [true] when an interval
    handle is stored; [gainNode] is the identity of the current node. *)
Record Fields := {
  audioQueue : list Frame;
  isPlaying : bool;
  isStreamComplete : bool;
  checkInterval : bool;
  scheduledTime : Q;
  gainNode : nat;
  retryCount : nat
}.

(** The platform around the object: sources started so far, timers armed
    by [scheduleNextBuffer] ([setTimeout]) and by [stop] (the delayed
    rebuild of the gain node), nodes created, console output, and the
    platform's behaviour on the coming passes of the scheduling loop (when
    the list is exhausted everything works). *)
Record Host := {
  started : list StartedSource;
  pendingSchedules : nat;
  pendingRebuilds : nat;
  nodesCreated : nat;
  console : list ConsoleError;
  behaviour : list Outcome
}.

Record AudioStreamer := { this : Fields; host : Host }.

(** Field updates. *)
Definition withQueue (q : list Frame) (s : AudioStreamer) : AudioStreamer :=
  let t := this s in
  {| this := {| audioQueue := q; isPlaying := isPlaying t;
                isStreamComplete := isStreamComplete t;
                checkInterval := checkInterval t;
                scheduledTime := scheduledTime t; gainNode := gainNode t;
                retryCount := retryCount t |};
     host := host s |}.

Definition withPlaying (b : bool) (s : AudioStreamer) : AudioStreamer :=
  let t := this s in
  {| this := {| audioQueue := audioQueue t; isPlaying := b;
                isStreamComplete := isStreamComplete t;
                checkInterval := checkInterval t;
                scheduledTime := scheduledTime t; gainNode := gainNode t;
                retryCount := retryCount t |};
     host := host s |}.

Definition withStreamComplete (b : bool) (s : AudioStreamer) : AudioStreamer :=
  let t := this s in
  {| this := {| audioQueue := audioQueue t; isPlaying := isPlaying t;
                isStreamComplete := b;
                checkInterval := checkInterval t;
                scheduledTime := scheduledTime t; gainNode := gainNode t;
                retryCount := retryCount t |};
     host := host s |}.

Definition withCheckInterval (b : bool) (s : AudioStreamer) : AudioStreamer :=
  let t := this s in
  {| this := {| audioQueue := audioQueue t; isPlaying := isPlaying t;
                isStreamComplete := isStreamComplete t;
                checkInterval := b;
                scheduledTime := scheduledTime t; gainNode := gainNode t;
                retryCount := retryCount t |};
     host := host s |}.

Definition withScheduledTime (x : Q) (s : AudioStreamer) : AudioStreamer :=
  let t := this s in
  {| this := {| audioQueue := audioQueue t; isPlaying := isPlaying t;
                isStreamComplete := isStreamComplete t;
                checkInterval := checkInterval t;
                scheduledTime := x; gainNode := gainNode t;
                retryCount := retryCount t |};
     host := host s |}.

Definition withRetryCount (n : nat) (s : AudioStreamer) : AudioStreamer :=
  let t := this s in
  {| this := {| audioQueue := audioQueue t; isPlaying := isPlaying t;
                isStreamComplete := isStreamComplete t;
                checkInterval := checkInterval t;
                scheduledTime := scheduledTime t; gainNode := gainNode t;
                retryCount := n |};
     host := host s |}.

(** [this.gainNode = this.context.createGain()] and its connections. *)
Definition createGain (s : AudioStreamer) : AudioStreamer :=
  let t := this s in
  let h := host s in
  {| this := {| audioQueue := audioQueue t; isPlaying := isPlaying t;
                isStreamComplete := isStreamComplete t;
                checkInterval := checkInterval t;
                scheduledTime := scheduledTime t;
                gainNode := nodesCreated h;
                retryCount := retryCount t |};
     host := {| started := started h; pendingSchedules := pendingSchedules h;
                pendingRebuilds := pendingRebuilds h;
                nodesCreated := S (nodesCreated h);
                console := console h; behaviour := behaviour h |} |}.

Definition logError (e : ConsoleError) (s : AudioStreamer) : AudioStreamer :=
  let h := host s in
  {| this := this s;
     host := {| started := started h; pendingSchedules := pendingSchedules h;
                pendingRebuilds := pendingRebuilds h;
                nodesCreated := nodesCreated h;
                console := console h ++ [e]; behaviour := behaviour h |} |}.

Definition recordStart (src : StartedSource) (s : AudioStreamer) : AudioStreamer :=
  let h := host s in
  {| this := this s;
     host := {| started := started h ++ [src];
                pendingSchedules := pendingSchedules h;
                pendingRebuilds := pendingRebuilds h;
                nodesCreated := nodesCreated h;
                console := console h; behaviour := behaviour h |} |}.

Definition withPendingSchedules (n : nat) (s : AudioStreamer) : AudioStreamer :=
  let h := host s in
  {| this := this s;
     host := {| started := started h; pendingSchedules := n;
                pendingRebuilds := pendingRebuilds h;
                nodesCreated := nodesCreated h;
                console := console h; behaviour := behaviour h |} |}.

Definition withPendingRebuilds (n : nat) (s : AudioStreamer) : AudioStreamer :=
  let h := host s in
  {| this := this s;
     host := {| started := started h; pendingSchedules := pendingSchedules h;
                pendingRebuilds := n;
                nodesCreated := nodesCreated h;
                console := console h; behaviour := behaviour h |} |}.

Definition withBehaviour (b : list Outcome) (s : AudioStreamer) : AudioStreamer :=
  let h := host s in
  {| this := this s;
     host := {| started := started h; pendingSchedules := pendingSchedules h;
                pendingRebuilds := pendingRebuilds h;
                nodesCreated := nodesCreated h;
                console := console h; behaviour := b |} |}.

(** The platform's behaviour on the next pass of the loop. *)
Definition nextOutcome (s : AudioStreamer) : Outcome * AudioStreamer :=
  match behaviour (host s) with
  | [] => (Plays, s)
  | o :: rest => (o, withBehaviour rest s)
  end.

(** Configuration constants of the class. *)
Definition sampleRate : Q := 24000.
Definition bufferSize : nat := Z.to_nat 7680.
Definition initialBufferTime : Q := 1 # 10.
Definition maxRetries : nat := 3.
Definition SCHEDULE_AHEAD_TIME : Q := 2 # 10.

(** [new AudioStreamer(context)]: one gain node is created; [behaviour] is
    what the platform will do. *)
Definition newAudioStreamer (platform : list Outcome) : AudioStreamer :=
  {| this := {| audioQueue := []; isPlaying := false;
                isStreamComplete := false; checkInterval := false;
                scheduledTime := 0; gainNode := 0%nat; retryCount := 0%nat |};
     host := {| started := []; pendingSchedules := 0; pendingRebuilds := 0;
                nodesCreated := 1; console := []; behaviour := platform |} |}.

(** How a call ends: it returns, or an exception leaves it.  The state
    reached is kept in both cases. *)
Inductive Completion := Returned (s : AudioStreamer) | Threw (s : AudioStreamer).

Definition stateOf (c : Completion) : AudioStreamer :=
  match c with Returned s => s | Threw s => s end.

(** The splitting loop of [addPCM16]:
    [while (processingBuffer.length >= this.bufferSize) { push slice(0, bufferSize);
     processingBuffer = processingBuffer.slice(bufferSize) }], followed by
    [if (processingBuffer.length > 0) push(processingBuffer)].
    Each pass removes [bufferSize > 0] samples, so the loop makes at most
    [processingBuffer.length] passes: that bound is the fuel. *)
Fixpoint splitLoop (fuel : nat) (processingBuffer : list Q) : list Frame :=
  if (bufferSize <=? List.length processingBuffer)%nat then
    match fuel with
    | O => []
    | S fuel =>
        firstn bufferSize processingBuffer
          :: splitLoop fuel (skipn bufferSize processingBuffer)
    end
  else
    match processingBuffer with
    | [] => []
    | _ :: _ => [processingBuffer]
    end.

Definition splitFrames (processingBuffer : list Q) : list Frame :=
  splitLoop (List.length processingBuffer) processingBuffer.

(** [audioBuffer.duration] of the buffer built by [createAudioBuffer]. *)
Definition duration (audioData : Frame) : Q :=
  inject_Z (Z.of_nat (List.length audioData)) / sampleRate.

(** The [while] loop of [scheduleNextBuffer], at clock reading [now];
    [queue] is [this.audioQueue]. *)
Fixpoint scheduleLoop (now : Q) (queue : list Frame) (s : AudioStreamer) : Completion :=
  match queue with
  | [] => Returned s
  | audioData :: rest =>
      if Qltb (scheduledTime (this s)) (now + SCHEDULE_AHEAD_TIME) then
        let s := withQueue rest s in                       (* shift() *)
        let (o, s) := nextOutcome s in
        match o with
        | NodeThrows => Threw s
        | Plays =>
            let startTime := Qmax (scheduledTime (this s)) now in
            let s := recordStart {| buffer := audioData; when := startTime;
                                    clock := now; output := gainNode (this s) |} s in
            scheduleLoop now rest (withScheduledTime (startTime + duration audioData) s)
        | StartThrows =>
            let s := logError ErrStartingSource s in
            scheduleLoop now rest (withScheduledTime (now + (1 # 10)) s)
        end
      else Returned s
  end.

(** [scheduleNextBuffer()]. *)
Definition scheduleNextBuffer (now : Q) (s : AudioStreamer) : Completion :=
  match scheduleLoop now (audioQueue (this s)) s with
  | Threw s => Threw s
  | Returned s =>
      match audioQueue (this s) with
      | [] =>
          if isStreamComplete (this s) then
            Returned (withCheckInterval false (withPlaying false s))
          else
            Returned (withCheckInterval true s)
      | _ :: _ =>
          Returned (withPendingSchedules (S (pendingSchedules (host s))) s)
      end
  end.

(** [stop()]: the fields, and the [setTimeout] that rebuilds the gain node
    200 ms later.  The gain ramp changes no field. *)
Definition stop (now : Q) (s : AudioStreamer) : AudioStreamer :=
  let s := withPlaying false s in
  let s := withStreamComplete true s in
  let s := withQueue [] s in
  let s := withScheduledTime now s in
  let s := withCheckInterval false s in
  withPendingRebuilds (S (pendingRebuilds (host s))) s.

(** [resume()], from the point where the context is running. *)
Definition resume (now : Q) (s : AudioStreamer) : AudioStreamer :=
  withScheduledTime (now + initialBufferTime) (withStreamComplete false s).

(** [attemptRecovery()]. *)
Definition attemptRecovery (now : Q) (s : AudioStreamer) : Completion :=
  let s := withRetryCount (S (retryCount (this s))) s in
  if (retryCount (this s) <=? maxRetries)%nat then
    let s := stop now s in
    let s := createGain s in
    let s := withPlaying false s in
    let s := withStreamComplete false s in
    let s := withScheduledTime (now + initialBufferTime) s in
    match audioQueue (this s) with
    | [] => Returned s
    | _ :: _ => scheduleNextBuffer now (withPlaying true s)
    end
  else
    Returned (logError MaxRecoveryReached s).

(** [addPCM16(chunk)].  The [try] block covers the decoding, the pushes and
    [scheduleNextBuffer]; the call of [context.resume()] on a suspended
    context changes no field and is left out. *)
Definition addPCM16 (now : Q) (chunk : list byte) (s : AudioStreamer) : Completion :=
  let s := withStreamComplete false s in
  let processingBuffer := _processPCM16Chunk chunk in
  let s := withQueue (audioQueue (this s) ++ splitFrames processingBuffer) s in
  if isPlaying (this s) then Returned s
  else
    let s := withPlaying true s in
    let s := withScheduledTime (now + initialBufferTime) s in
    match scheduleNextBuffer now s with
    | Returned s => Returned s
    | Threw s => attemptRecovery now (logError ErrAddingPCM16 s)
    end.

(** Timer callbacks: the [setTimeout] of [scheduleNextBuffer], the
    [setInterval] of [scheduleNextBuffer] and the [setTimeout] of [stop]. *)
Inductive Timer :=
| TimeoutFires (now : Q)
| IntervalTicks (now : Q)
| RebuildFires.

Definition fire (t : Timer) (s : AudioStreamer) : Completion :=
  match t with
  | TimeoutFires now =>
      match pendingSchedules (host s) with
      | O => Returned s
      | S n => scheduleNextBuffer now (withPendingSchedules n s)
      end
  | IntervalTicks now =>
      if checkInterval (this s) then
        match audioQueue (this s) with
        | [] => Returned s
        | _ :: _ => scheduleNextBuffer now s
        end
      else Returned s
  | RebuildFires =>
      match pendingRebuilds (host s) with
      | O => Returned s
      | S n => Returned (createGain (withPendingRebuilds n s))
      end
  end.

(** What happens to the object: calls of its public methods, each at a
    reading of the audio clock, and timer callbacks. *)
Inductive Event :=
| AddPCM16 (now : Q) (chunk : list byte)
| Stop (now : Q)
| Resume (now : Q)
| Fires (t : Timer).

Definition step (s : AudioStreamer) (e : Event) : AudioStreamer :=
  match e with
  | AddPCM16 now chunk => stateOf (addPCM16 now chunk s)
  | Stop now => stop now s
  | Resume now => resume now s
  | Fires t => stateOf (fire t s)
  end.

Definition run (events : list Event) (s : AudioStreamer) : AudioStreamer :=
  fold_left step events s.

(** Frames accepted so far that were not lost: the buffers of the started
    sources followed by the queue. *)
Definition frames (s : AudioStreamer) : list Frame :=
  map buffer (started (host s)) ++ audioQueue (this s).

(** Number of "Max recovery attempts reached" errors on the console. *)
Definition isFatal (e : ConsoleError) : bool :=
  match e with MaxRecoveryReached => true | _ => false end.

Definition fatalErrors (s : AudioStreamer) : nat :=
  List.length (filter isFatal (console (host s))).

(** Number of failures caught by [addPCM16], each of which is logged as
    'Error adding PCM16 data:' before [attemptRecovery] is called. *)
Definition isCaught (e : ConsoleError) : bool :=
  match e with ErrAddingPCM16 => true | _ => false end.

Definition caughtFailures (s : AudioStreamer) : nat :=
  List.length (filter isCaught (console (host s))).

(** The clock reading of an event, when it has one. *)
Definition clockOf (e : Event) : option Q :=
  match e with
  | AddPCM16 now _ | Stop now | Resume now => Some now
  | Fires (TimeoutFires now) | Fires (IntervalTicks now) => Some now
  | Fires RebuildFires => None
  end.

(** Every started source starts no earlier than the clock read when it
    was started. *)
Definition neverInPast (s : AudioStreamer) : Prop :=
  Forall (fun src => clock src <= when src) (started (host s)).

(** A call made at clock reading [now] leaves [scheduledTime] as it was or
    at a value that is not behind [now]. *)
Definition notSetBehind (now : option Q) (s s' : AudioStreamer) : Prop :=
  scheduledTime (this s') = scheduledTime (this s) \/
  exists t, now = Some t /\ t <= scheduledTime (this s').

(** Example inputs: a chunk holding one sample; a chunk of 15362 bytes,
    one sample more than [bufferSize]; a platform on which building the
    audio nodes keeps throwing; three failing [addPCM16] calls, and five
    (after the fourth the scheduler stays marked as playing, so a [stop()]
    precedes the fifth). *)
Definition oneSample : list byte := ["000"; "000"]%byte.
Definition longChunk : list byte := repeat "000"%byte (Z.to_nat 15362).
Definition failingPlatform : list Outcome := repeat NodeThrows 5.
Definition threeFailures : list Event :=
  [AddPCM16 0 oneSample; AddPCM16 0 oneSample; AddPCM16 0 oneSample].
Definition fiveFailures : list Event :=
  threeFailures ++ [AddPCM16 0 oneSample; Stop 0; AddPCM16 0 oneSample].

(** The retry counter, the fatal errors logged and the failures caught. *)
Definition books (s : AudioStreamer) : nat * nat * nat :=
  (retryCount (this s), fatalErrors s, caughtFailures s).

(** The retry counter equals the number of failures caught, and the fatal
    error has been logged once per failure beyond [maxRetries]. *)
Definition budgetKept (s : AudioStreamer) : Prop :=
  retryCount (this s) = caughtFailures s /\
  fatalErrors s = (caughtFailures s - maxRetries)%nat.



End Streamer.

(* ===================================================================== *)
(** ** Capture bridge: class [AudioRecorder] *)
(* ===================================================================== *)

Module Recorder.

(** Reasons with which an awaited platform promise rejects, or that the
    body of the initialization throws. *)
Inductive Failure :=
| NotAllowedError      (* microphone permission denied *)
| NotFoundError        (* no microphone present *)
| TypeError
| OtherFailure.

(** The [await] at which the initialization started by [start()] is
    suspended. *)
Inductive Phase :=
| AwaitUserMedia          (* await navigator.mediaDevices.getUserMedia(...) *)
| AwaitAudioContext       (* await audioContext({ sampleRate }) *)
| AwaitRecorderModule     (* await audioWorklet.addModule(src) *)
| AwaitVuModule.          (* await audioWorklet.addModule(vu meter) *)

Inductive Settlement := Pending | Fulfilled | Rejected (e : Failure).

(** Fields of the object.  Streams and promises are named by numbers;
    [source] holds the stream its node was created from. *)
Record Fields := {
  stream : option nat;
  source : option nat;
  recording : bool;
  recordingWorklet : bool;
  vuWorklet : bool;
  starting : option nat
}.

(** The platform: every promise made by [start()] with its state, the
    suspended initializations, the [handleStop] reactions registered by
    [this.starting.then(handleStop)], the calls of [getUserMedia], the
    streams handed out, the streams whose track is live, the streams whose
    track was stopped, the streams of the sources connected to a worklet,
    and whether [navigator.mediaDevices.getUserMedia] exists. *)
Record Host := {
  promises : list Settlement;
  suspended : list (nat * Phase);
  reactions : list nat;
  requests : nat;
  granted : nat;
  liveTracks : list nat;
  stoppedTracks : list nat;
  connections : list nat;
  mediaDevices : bool
}.

Record AudioRecorder := { this : Fields; host : Host }.

(** [new AudioRecorder()]. *)
Definition newAudioRecorder (hasMediaDevices : bool) : AudioRecorder :=
  {| this := {| stream := None; source := None; recording := false;
                recordingWorklet := false; vuWorklet := false;
                starting := None |};
     host := {| promises := []; suspended := []; reactions := [];
                requests := 0; granted := 0; liveTracks := [];
                stoppedTracks := []; connections := [];
                mediaDevices := hasMediaDevices |} |}.

Definition withFields (f : Fields) (s : AudioRecorder) : AudioRecorder :=
  {| this := f; host := host s |}.

Definition withHost (h : Host) (s : AudioRecorder) : AudioRecorder :=
  {| this := this s; host := h |}.

Definition withStarting (p : option nat) (s : AudioRecorder) : AudioRecorder :=
  let t := this s in
  withFields {| stream := stream t; source := source t;
                recording := recording t;
                recordingWorklet := recordingWorklet t;
                vuWorklet := vuWorklet t; starting := p |} s.

(** The phase at which promise [p]'s initialization is suspended. *)
Fixpoint phaseOf (p : nat) (l : list (nat * Phase)) : option Phase :=
  match l with
  | [] => None
  | (q, ph) :: rest => if Nat.eqb p q then Some ph else phaseOf p rest
  end.

Definition dropTask (p : nat) (l : list (nat * Phase)) : list (nat * Phase) :=
  filter (fun e => negb (Nat.eqb p (fst e))) l.

Definition setPhase (p : nat) (ph : Phase) (s : AudioRecorder) : AudioRecorder :=
  let h := host s in
  withHost {| promises := promises h;
              suspended := (p, ph) :: dropTask p (suspended h);
              reactions := reactions h; requests := requests h;
              granted := granted h; liveTracks := liveTracks h;
              stoppedTracks := stoppedTracks h;
              connections := connections h;
              mediaDevices := mediaDevices h |} s.

Fixpoint setNth {A} (n : nat) (x : A) (l : list A) : list A :=
  match l, n with
  | [], _ => []
  | _ :: rest, O => x :: rest
  | y :: rest, S n => y :: setNth n x rest
  end.

(** Promise [p] settles and its initialization is over. *)
Definition settlePromise (p : nat) (r : Settlement) (s : AudioRecorder) : AudioRecorder :=
  let h := host s in
  withHost {| promises := setNth p r (promises h);
              suspended := dropTask p (suspended h);
              reactions := reactions h; requests := requests h;
              granted := granted h; liveTracks := liveTracks h;
              stoppedTracks := stoppedTracks h;
              connections := connections h;
              mediaDevices := mediaDevices h |} s.

(** [handleStop] of [stop()]. *)
Definition handleStop (s : AudioRecorder) : AudioRecorder :=
  let t := this s in
  let h := host s in
  {| this := {| stream := None; source := source t; recording := false;
                recordingWorklet := false; vuWorklet := false;
                starting := starting t |};
     host :=
       match stream t with
       | None =>
           {| promises := promises h; suspended := suspended h;
              reactions := reactions h; requests := requests h;
              granted := granted h; liveTracks := liveTracks h;
              stoppedTracks := stoppedTracks h;
              connections :=
                match source t with
                | None => connections h
                | Some src => filter (fun c => negb (Nat.eqb c src)) (connections h)
                end;
              mediaDevices := mediaDevices h |}
       | Some sid =>
           {| promises := promises h; suspended := suspended h;
              reactions := reactions h; requests := requests h;
              granted := granted h;
              liveTracks := filter (fun c => negb (Nat.eqb c sid)) (liveTracks h);
              stoppedTracks := stoppedTracks h ++ [sid];
              connections :=
                match source t with
                | None => connections h
                | Some src => filter (fun c => negb (Nat.eqb c src)) (connections h)
                end;
              mediaDevices := mediaDevices h |}
       end |}.

(** The [catch] and [finally] of the initialization:
    [reject(error)], then [this.starting = null]. *)
Definition failInit (p : nat) (e : Failure) (s : AudioRecorder) : AudioRecorder :=
  withStarting None (settlePromise p (Rejected e) s).

(** The reactions registered on promise [p] run once it is fulfilled. *)
Definition runReactions (p : nat) (s : AudioRecorder) : AudioRecorder :=
  let h := host s in
  let n := count_occ Nat.eq_dec (reactions h) p in
  let s := withHost {| promises := promises h; suspended := suspended h;
                       reactions := filter (fun q => negb (Nat.eqb q p)) (reactions h);
                       requests := requests h; granted := granted h;
                       liveTracks := liveTracks h;
                       stoppedTracks := stoppedTracks h;
                       connections := connections h;
                       mediaDevices := mediaDevices h |} s in
  Nat.iter n handleStop s.

(** How [start()] ends for its caller: with the promise stored in
    [this.starting], or by throwing before any promise is made. *)
Inductive StartResult := StartReturns (p : nat) | StartThrows.

(** [start()], up to the first [await] of the initialization. *)
Definition start (s : AudioRecorder) : AudioRecorder * StartResult :=
  let h := host s in
  if mediaDevices h then
    let p := List.length (promises h) in
    let s := withHost {| promises := promises h ++ [Pending];
                         suspended := (p, AwaitUserMedia) :: suspended h;
                         reactions := reactions h;
                         requests := S (requests h);
                         granted := granted h; liveTracks := liveTracks h;
                         stoppedTracks := stoppedTracks h;
                         connections := connections h;
                         mediaDevices := mediaDevices h |} s in
    (withStarting (Some p) s, StartReturns p)
  else (s, StartThrows).

(** The initialization of promise [p] resumes: the promise it awaits has
    been fulfilled ([None]) or rejected ([Some e]). *)
Definition resumeInit (p : nat) (r : option Failure) (s : AudioRecorder) : AudioRecorder :=
  match phaseOf p (suspended (host s)) with
  | None => s
  | Some ph =>
      match r with
      | Some e => failInit p e s
      | None =>
          let t := this s in
          let h := host s in
          match ph with
          | AwaitUserMedia =>
              let sid := granted h in
              setPhase p AwaitAudioContext
                {| this := {| stream := Some sid; source := source t;
                              recording := recording t;
                              recordingWorklet := recordingWorklet t;
                              vuWorklet := vuWorklet t;
                              starting := starting t |};
                   host := {| promises := promises h;
                              suspended := suspended h;
                              reactions := reactions h;
                              requests := requests h;
                              granted := S (granted h);
                              liveTracks := liveTracks h ++ [sid];
                              stoppedTracks := stoppedTracks h;
                              connections := connections h;
                              mediaDevices := mediaDevices h |} |}
          | AwaitAudioContext =>
              match stream t with
              | None => failInit p TypeError s
              | Some sid =>
                  setPhase p AwaitRecorderModule
                    (withFields {| stream := stream t; source := Some sid;
                                   recording := recording t;
                                   recordingWorklet := recordingWorklet t;
                                   vuWorklet := vuWorklet t;
                                   starting := starting t |} s)
              end
          | AwaitRecorderModule =>
              match source t with
              | None => failInit p TypeError s
              | Some src =>
                  setPhase p AwaitVuModule
                    {| this := {| stream := stream t; source := source t;
                                  recording := recording t;
                                  recordingWorklet := true;
                                  vuWorklet := vuWorklet t;
                                  starting := starting t |};
                       host := {| promises := promises h;
                                  suspended := suspended h;
                                  reactions := reactions h;
                                  requests := requests h;
                                  granted := granted h;
                                  liveTracks := liveTracks h;
                                  stoppedTracks := stoppedTracks h;
                                  connections := connections h ++ [src];
                                  mediaDevices := mediaDevices h |} |}
              end
          | AwaitVuModule =>
              match source t with
              | None => failInit p TypeError s
              | Some src =>
                  let s :=
                    {| this := {| stream := stream t; source := source t;
                                  recording := true;
                                  recordingWorklet := recordingWorklet t;
                                  vuWorklet := true;
                                  starting := starting t |};
                       host := {| promises := promises h;
                                  suspended := suspended h;
                                  reactions := reactions h;
                                  requests := requests h;
                                  granted := granted h;
                                  liveTracks := liveTracks h;
                                  stoppedTracks := stoppedTracks h;
                                  connections := connections h ++ [src];
                                  mediaDevices := mediaDevices h |} |} in
                  runReactions p
                    (withStarting None (settlePromise p Fulfilled s))
              end
          end
      end
  end.

(** [stop()]. *)
Definition stop (s : AudioRecorder) : AudioRecorder :=
  match starting (this s) with
  | Some p =>
      match nth_error (promises (host s)) p with
      | Some Fulfilled => handleStop s
      | Some (Rejected _) => s
      | _ =>
          let h := host s in
          withHost {| promises := promises h; suspended := suspended h;
                      reactions := reactions h ++ [p];
                      requests := requests h; granted := granted h;
                      liveTracks := liveTracks h;
                      stoppedTracks := stoppedTracks h;
                      connections := connections h;
                      mediaDevices := mediaDevices h |} s
      end
  | None => handleStop s
  end.

(** Calls of the public methods and resumptions of a suspended
    initialization. *)
Inductive Event :=
| CallStart
| CallStop
| Resumes (p : nat) (r : option Failure).

Definition step (s : AudioRecorder) (e : Event) : AudioRecorder :=
  match e with
  | CallStart => fst (start s)
  | CallStop => stop s
  | Resumes p r => resumeInit p r s
  end.

Definition run (events : list Event) (s : AudioRecorder) : AudioRecorder :=
  fold_left step events s.

(** Nothing of a session is held: no stream handle, no source connected to
    a worklet, no worklet, not recording, no live hardware track. *)
Definition Idle (s : AudioRecorder) : Prop :=
  stream (this s) = None /\ recording (this s) = false /\
  recordingWorklet (this s) = false /\ vuWorklet (this s) = false /\
  connections (host s) = [] /\ liveTracks (host s) = [].

(** The error kinds that the capture bridge classifies as a failure to
    access the hardware: permission denied, or no device present. *)
Definition HardwareAccessError (e : Failure) : Prop :=
  e = NotAllowedError \/ e = NotFoundError.

End Recorder.

(* ===================================================================== *)
(** ** Transport decoding: [base64ToArrayBuffer] *)
(* ===================================================================== *)

Module Base64.

(** A JavaScript string: its UTF-16 code units. *)
Definition JSString := list N.

Inductive Exception := InvalidCharacterError.

Inductive Completion (A : Type) := Returns (a : A) | Throws (e : Exception).
Arguments Returns {A} a.
Arguments Throws {A} e.

(** [try { body } catch (error) { handler }]. *)
Definition tryCatch {A} (body : Completion A) (handler : Exception -> Completion A)
  : Completion A :=
  match body with
  | Returns a => Returns a
  | Throws e => handler e
  end.

Definition bind {A B} (c : Completion A) (k : A -> Completion B) : Completion B :=
  match c with
  | Returns a => k a
  | Throws e => Throws e
  end.

(** [bytes[i] = binaryString.charCodeAt(i)] for every [i]: each code unit
    is stored modulo 256. *)
Definition charCodes (binaryString : JSString) : list byte :=
  map (fun c => Codec.byteOfZ (Z.of_N c)) binaryString.

Section WithPlatform.

(** The platform's [atob]. *)
Variable atob : JSString -> Completion JSString.

(** [base64ToArrayBuffer(base64)]; the result is the content of the
    [ArrayBuffer]. *)
Definition base64ToArrayBuffer (base64 : JSString) : Completion (list byte) :=
  tryCatch
    (bind (atob base64) (fun binaryString => Returns (charCodes binaryString)))
    (fun _ => Returns []).

End WithPlatform.

(** [atob] as the HTML Standard defines it (forgiving-base64 decode). *)

Definition isAsciiWhitespace (c : N) : bool :=
  existsb (N.eqb c) [9; 10; 12; 13; 32]%N.

Definition sextet (c : N) : option N :=
  if ((65 <=? c) && (c <=? 90))%N then Some (c - 65)%N
  else if ((97 <=? c) && (c <=? 122))%N then Some (c - 71)%N
  else if ((48 <=? c) && (c <=? 57))%N then Some (c + 4)%N
  else if (c =? 43)%N then Some 62%N
  else if (c =? 47)%N then Some 63%N
  else None.

Fixpoint sextets (data : list N) : option (list N) :=
  match data with
  | [] => Some []
  | c :: rest =>
      match sextet c, sextets rest with
      | Some v, Some vs => Some (v :: vs)
      | _, _ => None
      end
  end.

(** Removes one or two trailing [=] when the length is a multiple of 4. *)
Definition stripPadding (data : list N) : list N :=
  if (List.length data mod 4 =? 0)%nat then
    match rev data with
    | 61%N :: 61%N :: r => rev r
    | 61%N :: r => rev r
    | _ => data
    end
  else data.

Fixpoint decodeGroups (v : list N) : list N :=
  match v with
  | a :: b :: c :: d :: rest =>
      let n := (((a * 64 + b) * 64 + c) * 64 + d)%N in
      (n / 65536)%N :: ((n / 256) mod 256)%N :: (n mod 256)%N
        :: decodeGroups rest
  | [a; b; c] =>
      let n := (((a * 64 + b) * 64 + c) / 4)%N in
      [(n / 256)%N; (n mod 256)%N]
  | [a; b] => [((a * 64 + b) / 16)%N]
  | _ => []
  end.

Definition forgivingBase64Decode (data : list N) : option (list N) :=
  let data := filter (fun c => negb (isAsciiWhitespace c)) data in
  let data := stripPadding data in
  if (List.length data mod 4 =? 1)%nat then None
  else
    match sextets data with
    | None => None
    | Some v => Some (decodeGroups v)
    end.

Definition windowAtob (data : JSString) : Completion JSString :=
  match forgivingBase64Decode data with
  | Some out => Returns out
  | None => Throws InvalidCharacterError
  end.

End Base64.


(* ===================================================================== *)
(** ** Capture worklet: class [AudioRecorderProcessor] *)
(* ===================================================================== *)

Module Worklet.
Import Codec.

(** Fields of the processor and, as [posted], the [int16arrayBuffer] of
    every message sent through [this.port.postMessage], as [Int16Array]s. *)
Record AudioRecorderProcessor := {
  _buffers : list (list Q);
  _frameCount : nat;
  posted : list (list Z)
}.

(** [constructor()]. *)
Definition newProcessor : AudioRecorderProcessor :=
  {| _buffers := []; _frameCount := 0; posted := [] |}.

(** [mergedBuffer.set(buffer, offset)] on a [Float32Array]: the samples
    from [offset] on are overwritten.  (The platform throws when the buffer
    does not fit; [process] never asks for that, see [merge_is_concat].) *)
Definition setAt (offset : nat) (buffer merged : list Q) : list Q :=
  firstn offset merged ++ buffer
    ++ skipn (offset + List.length buffer) merged.

(** The merging loop of [process]:
    [for (const buffer of this._buffers) { mergedBuffer.set(buffer, offset);
     offset += buffer.length }]. *)
Fixpoint mergeLoop (buffers : list (list Q)) (offset : nat) (merged : list Q)
  : list Q :=
  match buffers with
  | [] => merged
  | buffer :: rest =>
      mergeLoop rest (offset + List.length buffer) (setAt offset buffer merged)
  end.

(** [process(inputs, outputs, parameters)]; it always returns [true].
    [inputs] is the array of inputs, each an array of channels. *)
Definition process (inputs : list (list (list Q))) (p : AudioRecorderProcessor)
  : AudioRecorderProcessor :=
  match inputs with
  | [] => p                                   (* !input *)
  | input :: _ =>
      match input with
      | [] => p                               (* !input.length *)
      | buffer :: _ =>
          let buffers := _buffers p ++ [buffer] in
          let frameCount := (_frameCount p + List.length buffer)%nat in
          if (1600 <=? frameCount)%nat then
            let mergedBuffer :=
              mergeLoop buffers 0 (repeat 0 frameCount) in
            {| _buffers := []; _frameCount := 0;
               posted := posted p ++ [_convertToInt16 mergedBuffer] |}
          else
            {| _buffers := buffers; _frameCount := frameCount;
               posted := posted p |}
      end
  end.

(** The processor after a sequence of render callbacks. *)
Definition render (calls : list (list (list (list Q)))) (p : AudioRecorderProcessor)
  : AudioRecorderProcessor :=
  fold_left (fun p inputs => process inputs p) calls p.

(** The samples a callback hands to the processor: the first channel of
    the first input, when there is one. *)
Definition captured (inputs : list (list (list Q))) : list Q :=
  match inputs with
  | (buffer :: _) :: _ => buffer
  | _ => []
  end.

(** What [process] keeps: [_frameCount] is the number of samples in
    [_buffers], and it is below the threshold. *)
Definition pendingOk (p : AudioRecorderProcessor) : Prop :=
  _frameCount p = List.length (concat (_buffers p)) /\
  (_frameCount p < 1600)%nat.

End Worklet.

(* ===================================================================== *)
(** ** Transport encoding: [arrayBufferToBase64] *)
(* ===================================================================== *)

From Stdlib Require Import NArith.

Module Transport.
Import Base64.

(** The loop of [arrayBufferToBase64]:
    [binary += String.fromCharCode(bytes[i])] for every byte. *)
Definition binaryOf (buffer : list byte) : JSString :=
  map Byte.to_N buffer.

Section WithPlatform.

(** The platform's [btoa] and [atob]. *)
Variable btoa : JSString -> Completion JSString.
Variable atob : JSString -> Completion JSString.

(** [arrayBufferToBase64(buffer)]. *)
Definition arrayBufferToBase64 (buffer : list byte) : Completion JSString :=
  btoa (binaryOf buffer).

(** The [onmessage] handler of the recording worklet in
    [AudioRecorder.start]: the argument of [this.emit("data", ...)] for a
    message carrying [int16arrayBuffer]. *)
Definition dataEvent (int16Buffer : list Z) : Completion JSString :=
  arrayBufferToBase64 (Codec.int16Bytes int16Buffer).

(** A data event carried back unchanged, decoded by [base64ToArrayBuffer]
    and handed to [_processPCM16Chunk] as [addPCM16] does. *)
Definition loopBack (int16Buffer : list Z) : Completion (list Q) :=
  bind (dataEvent int16Buffer) (fun data =>
  bind (base64ToArrayBuffer atob data) (fun buffer =>
  Returns (Codec._processPCM16Chunk buffer))).

End WithPlatform.

(** [btoa] as the HTML Standard defines it: it throws on a code unit above
    255 and otherwise encodes the bytes in base64 with padding. *)

Definition alphabet (v : N) : N :=
  if (v <? 26)%N then (v + 65)%N
  else if (v <? 52)%N then (v + 71)%N
  else if (v <? 62)%N then (v - 4)%N
  else if (v =? 62)%N then 43%N
  else 47%N.

Fixpoint encodeGroups (data : list N) : list N :=
  match data with
  | a :: b :: c :: rest =>
      let n := ((a * 256 + b) * 256 + c)%N in
      alphabet (n / 262144) :: alphabet ((n / 4096) mod 64)
        :: alphabet ((n / 64) mod 64) :: alphabet (n mod 64)
        :: encodeGroups rest
  | [a; b] =>
      let n := ((a * 256 + b) * 4)%N in
      [alphabet (n / 4096); alphabet ((n / 64) mod 64); alphabet (n mod 64); 61%N]
  | [a] =>
      let n := (a * 16)%N in
      [alphabet (n / 64); alphabet (n mod 64); 61%N; 61%N]
  | [] => []
  end.

Definition windowBtoa (data : JSString) : Completion JSString :=
  if forallb (fun c => (c <? 256)%N) data then Returns (encodeGroups data)
  else Throws InvalidCharacterError.

(** What the characters of the alphabet are for [atob]: the character of
    a sextet decodes to it, is no whitespace and is not [=]. *)
Definition probe (v : N) : bool :=
  match sextet (alphabet v) with
  | Some w => (w =? v)%N
  | None => false
  end && negb (isAsciiWhitespace (alphabet v)) && negb (alphabet v =? 61)%N.

(** What [btoa] produces: characters of the alphabet followed by at most
    two [=], in groups of four, which decode to the input. *)
Definition wellEncoded (data : list N) : Prop :=
  exists body pad v,
    encodeGroups data = body ++ pad /\
    (pad = [] \/ pad = [61%N] \/ pad = [61%N; 61%N]) /\
    Forall (fun c => c <> 61%N /\ isAsciiWhitespace c = false) body /\
    (List.length (body ++ pad) mod 4 = 0)%nat /\
    (List.length body mod 4 <> 1)%nat /\
    sextets body = Some v /\ decodeGroups v = data.

End Transport.

(* ===================================================================== *)
(** ** WAV header: [createWavHeader] and its helpers *)
(* ===================================================================== *)

Module Wav.
Import Codec.

(** [ToInt32] of a finite number, the conversion applied to the operands
    of [&] and [>>]: truncate, reduce modulo [2^32], read as signed. *)
Definition ToInt32 (value : Q) : Z :=
  let m := ((truncate value) mod 4294967296)%Z in
  if (2147483648 <=? m)%Z then (m - 4294967296)%Z else m.

(** [dataView[index] = v] on a [Uint8Array]: stored modulo 256; a store
    beyond the end does nothing. *)
Fixpoint store (index : nat) (v : Z) (dataView : list byte) : list byte :=
  match dataView, index with
  | [], _ => []
  | _ :: rest, O => byteOfZ v :: rest
  | b :: rest, S index => b :: store index v rest
  end.

(** [writeString(dataView, offset, string)]. *)
Fixpoint writeString (dataView : list byte) (offset : nat) (string : list N)
  : list byte :=
  match string with
  | [] => dataView
  | c :: rest => writeString (store offset (Z.of_N c) dataView) (S offset) rest
  end.

(** [writeInt16(dataView, offset, value)]. *)
Definition writeInt16 (dataView : list byte) (offset : nat) (value : Q)
  : list byte :=
  let dataView := store offset (Z.land (ToInt32 value) 255) dataView in
  store (offset + 1) (Z.land (Z.shiftr (ToInt32 value) 8) 255) dataView.

(** [writeInt32(dataView, offset, value)]. *)
Definition writeInt32 (dataView : list byte) (offset : nat) (value : Q)
  : list byte :=
  let dataView := store offset (Z.land (ToInt32 value) 255) dataView in
  let dataView := store (offset + 1) (Z.land (Z.shiftr (ToInt32 value) 8) 255) dataView in
  let dataView := store (offset + 2) (Z.land (Z.shiftr (ToInt32 value) 16) 255) dataView in
  store (offset + 3) (Z.land (Z.shiftr (ToInt32 value) 24) 255) dataView.

(** The string literals of [createWavHeader], as code units. *)
Definition RIFF : list N := [82; 73; 70; 70]%N.
Definition WAVE : list N := [87; 65; 86; 69]%N.
Definition fmt_ : list N := [102; 109; 116; 32]%N.
Definition data : list N := [100; 97; 116; 97]%N.

(** [createWavHeader(pcmDataLength, sampleRate, numChannels, bitsPerSample)]
    on integer arguments (products and sums are taken exactly). *)
Definition createWavHeader
  (pcmDataLength sampleRate numChannels bitsPerSample : Z) : list byte :=
  let byteRate := inject_Z (sampleRate * numChannels * bitsPerSample) / 8 in
  let blockAlign := inject_Z (numChannels * bitsPerSample) / 8 in
  let totalDataLength := inject_Z (36 + pcmDataLength) in
  let header := repeat "000"%byte 44 in
  let header := writeString header 0 RIFF in
  let header := writeInt32 header 4 totalDataLength in
  let header := writeString header 8 WAVE in
  let header := writeString header 12 fmt_ in
  let header := writeInt32 header 16 16 in
  let header := writeInt16 header 20 1 in
  let header := writeInt16 header 22 (inject_Z numChannels) in
  let header := writeInt32 header 24 (inject_Z sampleRate) in
  let header := writeInt32 header 28 byteRate in
  let header := writeInt16 header 32 blockAlign in
  let header := writeInt16 header 34 (inject_Z bitsPerSample) in
  let header := writeString header 36 data in
  writeInt32 header 40 (inject_Z pcmDataLength).

(** The four bytes written by [writeInt32] and the two written by
    [writeInt16]. *)
Definition int32Bytes (value : Q) : list byte :=
  [byteOfZ (Z.land (ToInt32 value) 255);
   byteOfZ (Z.land (Z.shiftr (ToInt32 value) 8) 255);
   byteOfZ (Z.land (Z.shiftr (ToInt32 value) 16) 255);
   byteOfZ (Z.land (Z.shiftr (ToInt32 value) 24) 255)].

Definition int16LowBytes (value : Q) : list byte :=
  [byteOfZ (Z.land (ToInt32 value) 255);
   byteOfZ (Z.land (Z.shiftr (ToInt32 value) 8) 255)].

(** How a reader of the header takes an unsigned little-endian field. *)
Definition byteAt (header : list byte) (offset : nat) : Z :=
  byteToZ (nth offset header "000"%byte).

Definition readUint16 (header : list byte) (offset : nat) : Z :=
  (byteAt header offset + 256 * byteAt header (offset + 1))%Z.

Definition readUint32 (header : list byte) (offset : nat) : Z :=
  (byteAt header offset + 256 * byteAt header (offset + 1)
   + 65536 * byteAt header (offset + 2)
   + 16777216 * byteAt header (offset + 3))%Z.

End Wav.

(* ===================================================================== *)
(** ** Playback scheduler: notions for its further properties *)
(* ===================================================================== *)

From Stdlib Require Import Sorted.

Module Playback.
Import Codec Streamer.

(** [l1] is [l2] with some elements left out; order and multiplicity are
    kept. *)
Inductive Subsequence {A : Type} : list A -> list A -> Prop :=
| sub_nil : Subsequence [] []
| sub_keep (x : A) (l1 l2 : list A) :
    Subsequence l1 l2 -> Subsequence (x :: l1) (x :: l2)
| sub_skip (x : A) (l1 l2 : list A) :
    Subsequence l1 l2 -> Subsequence l1 (x :: l2).

(** The frames that the [addPCM16] calls of a trace push on the queue, in
    order. *)
Definition pushed (events : list Event) : list Frame :=
  flat_map (fun e => match e with
                     | AddPCM16 _ chunk => splitFrames (_processPCM16Chunk chunk)
                     | _ => []
                     end) events.

(** A timer that runs the scheduling loop is armed: the interval, or a
    timeout that has not fired yet. *)
Definition armed (s : AudioStreamer) : Prop :=
  checkInterval (this s) = true \/ (0 < pendingSchedules (host s))%nat.

(** Marked as playing with no timer armed. *)
Definition stalled (s : AudioStreamer) : Prop :=
  isPlaying (this s) = true /\ checkInterval (this s) = false /\
  pendingSchedules (host s) = 0%nat.


(** Every event but [stop()]. *)
Definition notStop (e : Event) : bool :=
  match e with
  | Stop _ => false
  | AddPCM16 _ _ | Resume _ | Fires _ => true
  end.



(** Every source was started for a time less than the look-ahead window
    after the clock read at that moment. *)
Definition withinWindow (s : AudioStreamer) : Prop :=
  Forall (fun src => when src < clock src + SCHEDULE_AHEAD_TIME)
         (started (host s)).

(** What a run on a platform that never throws keeps. *)
Definition keepsArmed (s : AudioStreamer) : Prop :=
  behaviour (host s) = [] /\
  (isPlaying (this s) = true -> armed s) /\
  (isPlaying (this s) = false -> audioQueue (this s) = []).



End Playback.

(* ===================================================================== *)
(** ** Capture bridge: notions for its further properties *)
(* ===================================================================== *)

Module Capture.
Import Recorder.

(** The hardware tracks are accounted for: the streams handed out so far
    are numbered below [granted]; each is live or stopped, never both and
    never twice; and the stream in [this.stream] is live. *)
Definition tracksOk (s : AudioRecorder) : Prop :=
  NoDup (liveTracks (host s) ++ stoppedTracks (host s)) /\
  (forall x, In x (liveTracks (host s) ++ stoppedTracks (host s))
             <-> (x < granted (host s))%nat) /\
  (forall sid, stream (this s) = Some sid -> In sid (liveTracks (host s))).

(** A [start()] whose microphone request is granted, whose next [k]
    awaited promises are fulfilled and whose following one is rejected with
    [e]; [stopAt] tells whether [stop()] is called while it is in flight,
    right after the grant. *)
Definition failingStart (k : nat) (e : Failure) (stopAt : bool) : list Event :=
  [CallStart; Resumes 0 None]
    ++ (if stopAt then [CallStop] else [])
    ++ repeat (Resumes 0 None) k ++ [Resumes 0 (Some e)].

End Capture.

(* ===================================================================== *)
(** ** Analytics: class [AnalyticsService] *)
(* ===================================================================== *)

From Stdlib Require Import Permutation.

Module Analytics.

Section WithProperties.

(** The type of the [properties] of an event ([Record<string, any>]). *)
Variable Props : Type.

(** Strings are sequences of code units; a [Date] is its time value. *)
Record AnalyticsEvent := {
  sessionId : list N;
  event : list N;
  properties : Props;
  timestamp : Z
}.

Record ResponseTimeMetrics := {
  metricSessionId : list N;
  stepId : list N;
  responseTime : Q;
  metricTimestamp : Z
}.

Record AnalyticsService := {
  events : list AnalyticsEvent;
  responseMetrics : list ResponseTimeMetrics
}.

Definition maxEvents : nat := 100.

(** [new AnalyticsService()]. *)
Definition newService : AnalyticsService :=
  {| events := []; responseMetrics := [] |}.

(** [array.slice(-k)]: the last [k] elements, or all of them. *)
Definition sliceLast {A} (k : nat) (l : list A) : list A :=
  skipn (List.length l - k) l.

(** [trackEvent(sessionId, event, properties)] at time [now]. *)
Definition trackEvent (sid ev : list N) (props : Props) (now : Z)
  (s : AnalyticsService) : AnalyticsService :=
  let analyticsEvent :=
    {| sessionId := sid; event := ev; properties := props; timestamp := now |} in
  let pushed := events s ++ [analyticsEvent] in
  {| events := if (maxEvents <? List.length pushed)%nat
               then sliceLast 50 pushed else pushed;
     responseMetrics := responseMetrics s |}.

(** [trackResponseTime(sessionId, stepId, responseTime)] at time [now]. *)
Definition trackResponseTime (sid step : list N) (time : Q) (now : Z)
  (s : AnalyticsService) : AnalyticsService :=
  let metric :=
    {| metricSessionId := sid; stepId := step; responseTime := time;
       metricTimestamp := now |} in
  let pushed := responseMetrics s ++ [metric] in
  {| events := events s;
     responseMetrics := if (50 <? List.length pushed)%nat
                        then sliceLast 25 pushed else pushed |}.

(** [this.events.sort((a, b) => b.timestamp.getTime() - a.timestamp.getTime())]:
    the sort is stable, so its result is that of inserting each element, from
    the last to the first, before the first element that is not newer. *)
Fixpoint insertNewest (x : AnalyticsEvent) (l : list AnalyticsEvent)
  : list AnalyticsEvent :=
  match l with
  | [] => [x]
  | y :: rest =>
      if (timestamp y <=? timestamp x)%Z then x :: y :: rest
      else y :: insertNewest x rest
  end.

Definition sortNewestFirst (l : list AnalyticsEvent) : list AnalyticsEvent :=
  fold_right insertNewest [] l.

(** [array.slice(0, limit)] for an integer [limit]: a negative one counts
    from the end. *)
Definition sliceTo {A} (limit : Z) (l : list A) : list A :=
  if (limit <? 0)%Z then firstn (List.length l - Z.to_nat (- limit)) l
  else firstn (Z.to_nat limit) l.

(** [getRecentEvents(limit)]: the array is sorted in place, and a slice of
    it is returned. *)
Definition getRecentEvents (limit : Z) (s : AnalyticsService)
  : AnalyticsService * list AnalyticsEvent :=
  let sorted := sortNewestFirst (events s) in
  ({| events := sorted; responseMetrics := responseMetrics s |},
   sliceTo limit sorted).

(** [clearAnalytics()]. *)
Definition clearAnalytics (s : AnalyticsService) : AnalyticsService :=
  {| events := []; responseMetrics := [] |}.

(** The calls of a trace. *)
Inductive Call :=
| TrackEvent (sid ev : list N) (props : Props) (now : Z)
| TrackResponseTime (sid step : list N) (time : Q) (now : Z).

Definition perform (s : AnalyticsService) (c : Call) : AnalyticsService :=
  match c with
  | TrackEvent sid ev props now => trackEvent sid ev props now s
  | TrackResponseTime sid step time now => trackResponseTime sid step time now s
  end.

(** The events and the metrics that the calls of a trace record, in
    order. *)
Definition tracked (calls : list Call) : list AnalyticsEvent :=
  flat_map (fun c => match c with
                     | TrackEvent sid ev props now =>
                         [{| sessionId := sid; event := ev;
                             properties := props; timestamp := now |}]
                     | _ => []
                     end) calls.

Definition measured (calls : list Call) : list ResponseTimeMetrics :=
  flat_map (fun c => match c with
                     | TrackResponseTime sid step time now =>
                         [{| metricSessionId := sid; stepId := step;
                             responseTime := time; metricTimestamp := now |}]
                     | _ => []
                     end) calls.

(** Newer events come first. *)
Definition newestFirst (a b : AnalyticsEvent) : Prop :=
  (timestamp b <= timestamp a)%Z.

(** What a run of tracking calls keeps. *)
Definition logsKept (calls : list Call) (s : AnalyticsService) : Prop :=
  ((exists dropped, tracked calls = dropped ++ events s) /\
   (List.length (events s) <= 100)%nat /\
   (Nat.min (List.length (tracked calls)) 50
    <= List.length (events s))%nat) /\
  ((exists dropped, measured calls = dropped ++ responseMetrics s) /\
   (List.length (responseMetrics s) <= 50)%nat /\
   (Nat.min (List.length (measured calls)) 25
    <= List.length (responseMetrics s))%nat).

End WithProperties.

Arguments sessionId {Props}.
Arguments event {Props}.
Arguments properties {Props}.
Arguments timestamp {Props}.
Arguments events {Props}.
Arguments responseMetrics {Props}.
Arguments TrackResponseTime {Props}.

End Analytics.

(* ===================================================================== *)
(** ** Audio contexts by id: [audioContext] of [audio-utils.ts] *)
(* ===================================================================== *)

Module ContextCache.

(** Equality of strings, as the keys of a [Map] are compared. *)
Definition sameKey (a b : list N) : bool :=
  if list_eq_dec N.eq_dec a b then true else false.

(** [audioContextMap.get(key)] ([None] is [undefined]; [has] is whether a
    value is found). *)
Fixpoint mapGet (key : list N) (m : list (list N * nat)) : option nat :=
  match m with
  | [] => None
  | (k, v) :: rest => if sameKey key k then Some v else mapGet key rest
  end.

(** [audioContextMap.set(key, value)]. *)
Fixpoint mapSet (key : list N) (value : nat) (m : list (list N * nat))
  : list (list N * nat) :=
  match m with
  | [] => [(key, value)]
  | (k, v) :: rest =>
      if sameKey key k then (key, value) :: rest
      else (k, v) :: mapSet key value rest
  end.

(** What [options?.id &&] lets through: an id that is given and is not the
    empty string. *)
Definition truthyId (id : option (list N)) : option (list N) :=
  match id with
  | Some (c :: rest) => Some (c :: rest)
  | _ => None
  end.

(** Where a call of [audioContext(options)] stands: suspended at
    [await unlockAudio()], suspended at [await existingContext.resume()],
    returned a context (contexts are numbered in the order of their
    construction), or thrown. *)
Inductive Progress :=
| AwaitUnlock
| AwaitResume (existingContext : nat)
| Fulfilled (context : nat)
| Rejected.

(** The module's [audioContextMap], the number of contexts constructed so
    far, and every call made, with its [options.id]. *)
Record Registry := {
  audioContextMap : list (list N * nat);
  constructed : nat;
  calls : list (option (list N) * Progress)
}.

Definition newRegistry : Registry :=
  {| audioContextMap := []; constructed := 0; calls := [] |}.

Definition setCall (call : nat) (id : option (list N)) (p : Progress)
  (r : Registry) : Registry :=
  {| audioContextMap := audioContextMap r; constructed := constructed r;
     calls := Recorder.setNth call (id, p) (calls r) |}.

(** [new AudioContext(options)], which may throw, followed by
    [if (options?.id) audioContextMap.set(options.id, newContext)] and
    [return newContext]. *)
Definition construct (call : nat) (id : option (list N))
  (constructorThrows : bool) (r : Registry) : Registry :=
  if constructorThrows then setCall call id Rejected r
  else
    let newContext := constructed r in
    {| audioContextMap :=
         match truthyId id with
         | Some key => mapSet key newContext (audioContextMap r)
         | None => audioContextMap r
         end;
       constructed := S (constructed r);
       calls := Recorder.setNth call (id, Fulfilled newContext) (calls r) |}.

(** A call begins; [unlockAudio()] settles for a call (the platform then
    tells whether an existing context is suspended and whether the
    constructor throws); [existingContext.resume()] settles for a call,
    either way. *)
Inductive Event :=
| Calls (id : option (list N))
| Unlocks (call : nat) (suspended constructorThrows : bool)
| ResumeSettles (call : nat).

Definition step (r : Registry) (e : Event) : Registry :=
  match e with
  | Calls id =>
      {| audioContextMap := audioContextMap r; constructed := constructed r;
         calls := calls r ++ [(id, AwaitUnlock)] |}
  | Unlocks call suspended constructorThrows =>
      match nth_error (calls r) call with
      | Some (id, AwaitUnlock) =>
          match truthyId id with
          | Some key =>
              match mapGet key (audioContextMap r) with
              | Some existingContext =>
                  if suspended
                  then setCall call id (AwaitResume existingContext) r
                  else setCall call id (Fulfilled existingContext) r
              | None => construct call id constructorThrows r
              end
          | None => construct call id constructorThrows r
          end
      | _ => r
      end
  | ResumeSettles call =>
      match nth_error (calls r) call with
      | Some (id, AwaitResume existingContext) =>
          setCall call id (Fulfilled existingContext) r
      | _ => r
      end
  end.

Definition run (events : list Event) (r : Registry) : Registry :=
  fold_left step events r.

(** Every call with an id that has returned, or that waits for an existing
    context to resume, holds the context stored under its id; stored
    contexts have been constructed. *)
Definition shared (r : Registry) : Prop :=
  (forall key c, mapGet key (audioContextMap r) = Some c ->
                 (c < constructed r)%nat) /\
  (forall call id key c,
      nth_error (calls r) call = Some (id, Fulfilled c) ->
      truthyId id = Some key -> mapGet key (audioContextMap r) = Some c) /\
  (forall call id key c,
      nth_error (calls r) call = Some (id, AwaitResume c) ->
      truthyId id = Some key -> mapGet key (audioContextMap r) = Some c).

End ContextCache.
(* ===================================================================== *)
(** * Properties *)
(* ===================================================================== *)

(** ** Codec *)

Section CodecFacts.
Import Codec.

Example convertSample_half : convertSample (1 # 2) = 16383%Z.
Proof. reflexivity. Qed.

Example convertSample_minus_half : convertSample (- (1 # 2)) = (-16384)%Z.
Proof. reflexivity. Qed.

Example roundTrip_clamps :
  roundTrip [3 # 1; - (5 # 1)] = [32767 # 32768; -32768 # 32768].
Proof. vm_compute. reflexivity. Qed.

Lemma Qltb_true (x y : Q) : Qltb x y = true <-> x < y.
Proof.
  unfold Qltb. rewrite negb_true_iff.
  destruct (Qle_bool y x) eqn:E.
  - apply Qle_bool_iff in E. split; [discriminate | intros H; lra].
  - split; [intros _ | reflexivity].
    apply Qnot_le_lt. intros H. apply Qle_bool_iff in H. congruence.
Qed.

Lemma Qltb_false (x y : Q) : Qltb x y = false <-> y <= x.
Proof.
  destruct (Qltb x y) eqn:E.
  - apply Qltb_true in E. split; [discriminate | intros H; lra].
  - split; [intros _ | reflexivity].
    apply Qnot_lt_le. intros H. apply Qltb_true in H. congruence.
Qed.

Lemma truncate_nonneg (q : Q) :
  0 <= q -> inject_Z (truncate q) <= q /\ q < inject_Z (truncate q) + 1.
Proof.
  destruct q as [n d]. unfold truncate, Qle, Qlt, Qplus, inject_Z. simpl.
  intros Hn. rewrite Z.mul_1_r in Hn.
  assert (Hd : (0 < Z.pos d)%Z) by lia.
  pose proof (Z.quot_rem' n (Z.pos d)) as E.
  pose proof (Z.rem_bound_pos n (Z.pos d) Hn Hd) as B.
  nia.
Qed.

Lemma truncate_nonpos (q : Q) :
  q <= 0 -> inject_Z (truncate q) - 1 < q /\ q <= inject_Z (truncate q).
Proof.
  destruct q as [n d].
  unfold truncate, Qle, Qlt, Qminus, Qplus, Qopp, inject_Z. simpl.
  intros Hn. rewrite Z.mul_1_r in Hn.
  assert (Hd : (0 < Z.pos d)%Z) by lia.
  pose proof (Z.quot_rem' n (Z.pos d)) as E.
  pose proof (Z.rem_bound_pos_neg n (Z.pos d) Hd Hn) as B.
  nia.
Qed.

Lemma inject_Z_le (t k : Z) : inject_Z t <= inject_Z k -> (t <= k)%Z.
Proof. intros H. rewrite Zle_Qle. exact H. Qed.

Lemma inject_Z_lt (t k : Z) : inject_Z t < inject_Z k -> (t < k)%Z.
Proof. intros H. rewrite Zlt_Qlt. exact H. Qed.

Lemma ToInt16_in_range (q : Q) :
  (-32768 <= truncate q <= 32767)%Z -> ToInt16 q = truncate q.
Proof.
  intros H. unfold ToInt16.
  destruct (Z.leb_spec 32768 (truncate q mod 65536));
    Z.div_mod_to_equations; lia.
Qed.

Lemma clampSample_range (x : Q) : -1 <= clampSample x <= 1.
Proof.
  unfold clampSample.
  destruct (Q.max_spec (-1) (Qmin 1 x)) as [[H E]|[H E]];
    destruct (Q.min_spec 1 x) as [[H' E']|[H' E']]; lra.
Qed.

Lemma clampSample_spec (x : Q) :
  (x < -1 /\ clampSample x == -1) \/
  (-1 <= x <= 1 /\ clampSample x == x) \/
  (1 < x /\ clampSample x == 1).
Proof.
  unfold clampSample.
  destruct (Q.max_spec (-1) (Qmin 1 x)) as [[H E]|[H E]];
    destruct (Q.min_spec 1 x) as [[H' E']|[H' E']];
    destruct (Qlt_le_dec x (-1)); destruct (Qlt_le_dec 1 x);
    try lra; auto; right; left; split; lra.
Qed.

(** The int16 stored for a sample: the scaled clamped sample, truncated
    toward zero; no wrap-around happens. *)
Lemma convertSample_spec (x : Q) :
  let s := clampSample x in
  let v := convertSample x in
  (-32768 <= v <= 32767)%Z /\
  ((s < 0 /\ inject_Z v - 1 < s * 32768 /\ s * 32768 <= inject_Z v) \/
   (0 <= s /\ inject_Z v <= s * 32767 /\ s * 32767 < inject_Z v + 1)).
Proof.
  intros s v. subst v. unfold convertSample. fold s.
  pose proof (clampSample_range x) as R. fold s in R.
  destruct (Qltb s 0) eqn:E.
  - apply Qltb_true in E.
    destruct (truncate_nonpos (s * 32768)) as [L U]; [lra|].
    assert (B : (-32768 <= truncate (s * 32768) <= 32767)%Z).
    { split.
      - apply inject_Z_le. change (inject_Z (-32768)) with (-32768). lra.
      - cut (truncate (s * 32768) < 1)%Z; [lia|].
        apply inject_Z_lt. change (inject_Z 1) with 1. lra. }
    rewrite ToInt16_in_range by exact B. split; [exact B|]. left. lra.
  - apply Qltb_false in E.
    destruct (truncate_nonneg (s * 32767)) as [L U]; [lra|].
    assert (B : (-32768 <= truncate (s * 32767) <= 32767)%Z).
    { split.
      - cut (-1 < truncate (s * 32767))%Z; [lia|].
        apply inject_Z_lt. change (inject_Z (-1)) with (-1). lra.
      - apply inject_Z_le. change (inject_Z 32767) with 32767. lra. }
    rewrite ToInt16_in_range by exact B. split; [exact B|]. right. lra.
Qed.

Lemma byteToZ_byteOfZ (z : Z) : byteToZ (byteOfZ z) = (z mod 256)%Z.
Proof.
  unfold byteToZ, byteOfZ.
  assert (Hm : (0 <= z mod 256 < 256)%Z) by (apply Z.mod_pos_bound; lia).
  destruct (Byte.of_N (Z.to_N (z mod 256))) as [b|] eqn:E.
  - apply Byte.to_of_N in E. rewrite E. lia.
  - apply Byte.of_N_None_iff in E. lia.
Qed.

(** Reading back the two little-endian bytes of an int16 gives the int16. *)
Lemma getInt16_bytes (v : Z) :
  (-32768 <= v <= 32767)%Z ->
  getInt16 (byteOfZ (v mod 65536)) (byteOfZ ((v mod 65536) / 256)) = v.
Proof.
  intros H. unfold getInt16. rewrite !byteToZ_byteOfZ.
  destruct (Z.leb_spec 32768
              ((v mod 65536) mod 256 + 256 * (((v mod 65536) / 256) mod 256)));
    Z.div_mod_to_equations; lia.
Qed.

Lemma roundTrip_cons (a : Q) (x : list Q) :
  roundTrip (a :: x)
  = (inject_Z (convertSample a) / 32768) :: roundTrip x.
Proof.
  unfold roundTrip. simpl.
  rewrite getInt16_bytes by apply convertSample_spec. reflexivity.
Qed.

(** Quantization error of one sample against its clamped value. *)
Lemma convertSample_error (a : Q) :
  Qabs (inject_Z (convertSample a) / 32768 - clampSample a) < 2 # 32768.
Proof.
  pose proof (clampSample_range a) as R.
  destruct (convertSample_spec a) as [_ [[N [L U]]|[N [L U]]]];
    apply Qabs_Qlt_condition; unfold Qdiv;
    change (/ 32768) with (1 # 32768); split; lra.
Qed.

(** Samples beyond the range are converted as the nearest end of it. *)
Lemma convertSample_saturates (a : Q) :
  (1 < a -> (convertSample a = 32767)%Z) /\
  (a < -1 -> (convertSample a = -32768)%Z).
Proof.
  destruct (convertSample_spec a) as [B S].
  destruct (clampSample_spec a) as [[H E]|[[H E]|[H E]]]; split; intros H';
    try lra.
  - destruct S as [[N [L U]]|[N [L U]]]; [|lra].
    assert (convertSample a < -32767)%Z; [|lia].
    apply inject_Z_lt. change (inject_Z (-32767)) with (-32767). lra.
  - destruct S as [[N [L U]]|[N [L U]]]; [lra|].
    assert (32766 < convertSample a)%Z; [|lia].
    apply inject_Z_lt. change (inject_Z 32766) with 32766. lra.
Qed.

(** C2, as amended.  For every sample array the playback codec applied to
    the capture codec's output has the same length and, per sample: an
    input in [-1, 1] comes back within 2/32768 (not 1/32768: non-negative
    samples are scaled by 32767 and divided by 32768); an input above 1
    comes back as 32767/32768 and an input below -1 as -1, that is, as the
    clamped sample would. *)
Theorem codec_round_trip (x : list Q) :
  Forall2 (fun a b =>
             (-1 <= a <= 1 -> Qabs (b - a) < 2 # 32768) /\
             (1 < a -> b == 32767 # 32768) /\
             (a < -1 -> b == -1))
          x (roundTrip x).
Proof.
  induction x as [|a x IH].
  - constructor.
  - rewrite roundTrip_cons. constructor; [|exact IH].
    pose proof (convertSample_error a) as E.
    destruct (convertSample_saturates a) as [Hi Lo].
    repeat split.
    + intros R. destruct (clampSample_spec a) as [[H C]|[[H C]|[H C]]];
        try lra.
      apply Qabs_Qlt_condition in E. apply Qabs_Qlt_condition.
      split; lra.
    + intros H. rewrite (Hi H). reflexivity.
    + intros H. rewrite (Lo H). reflexivity.
Qed.

Lemma codec_round_trip_witness :
  Forall2 (fun a b =>
             (-1 <= a <= 1 -> Qabs (b - a) < 2 # 32768) /\
             (1 < a -> b == 32767 # 32768) /\
             (a < -1 -> b == -1))
          [1 # 3; 7 # 2; - (9 # 4)]
          [10922 # 32768; 32767 # 32768; -32768 # 32768].
Proof. exact (codec_round_trip [1 # 3; 7 # 2; - (9 # 4)]). Defined.

(** C2 as stated fails: the sample 65535/65536 lies in [-1, 1], is a
    Float32 value, and comes back as 32766/32768, which is 1.5/32768 away. *)
Lemma codec_round_trip_counterexample :
  -1 <= 65535 # 65536 <= 1 /\
  roundTrip [65535 # 65536] = [32766 # 32768] /\
  ~ Forall2 (fun a b => Qabs (b - a) <= 1 # 32768)
      [65535 # 65536] (roundTrip [65535 # 65536]).
Proof.
  split; [split; discriminate|]. split; [vm_compute; reflexivity|].
  intros H. inversion H as [|a b l l' Hab _ E1 E2]; subst.
  vm_compute in Hab. apply Hab. reflexivity.
Qed.

End CodecFacts.

(** ** Playback scheduler *)

Section StreamerFacts.
Import Codec Streamer.

Lemma scheduleLoop_neverInPast (now : Q) (queue : list Frame) :
  forall s, neverInPast s -> neverInPast (stateOf (scheduleLoop now queue s)).
Proof.
  induction queue as [|audioData rest IH]; intros s P; simpl.
  - exact P.
  - destruct (Qltb (scheduledTime (this s)) (now + SCHEDULE_AHEAD_TIME));
      [|exact P].
    destruct (nextOutcome (withQueue rest s)) as [o s1] eqn:E.
    assert (P1 : neverInPast s1).
    { unfold nextOutcome in E. simpl in E.
      destruct (behaviour (host s)); inversion E; subst; exact P. }
    destruct o.
    + apply IH. unfold neverInPast in *. simpl.
      apply Forall_app. split; [exact P1|].
      constructor; [|constructor]. simpl. apply Q.le_max_r.
    + apply IH. exact P1.
    + exact P1.
Qed.

Lemma scheduleNextBuffer_neverInPast (now : Q) (s : AudioStreamer) :
  neverInPast s -> neverInPast (stateOf (scheduleNextBuffer now s)).
Proof.
  intros P. unfold scheduleNextBuffer.
  pose proof (scheduleLoop_neverInPast now (audioQueue (this s)) s P) as H.
  destruct (scheduleLoop now (audioQueue (this s)) s) as [s1|s1]; simpl in *.
  - destruct (audioQueue (this s1)); [destruct (isStreamComplete (this s1))|];
      exact H.
  - exact H.
Qed.

Lemma attemptRecovery_neverInPast (now : Q) (s : AudioStreamer) :
  neverInPast s -> neverInPast (stateOf (attemptRecovery now s)).
Proof.
  intros P. unfold attemptRecovery. simpl. 
  destruct (retryCount (this s) <=? 2)%nat; exact P.
Qed.

Lemma addPCM16_neverInPast (now : Q) (chunk : list byte) (s : AudioStreamer) :
  neverInPast s -> neverInPast (stateOf (addPCM16 now chunk s)).
Proof.
  intros P. unfold addPCM16.
  set (q := audioQueue _ ++ splitFrames _). clearbody q. simpl.
  destruct (isPlaying (this s)); [exact P|].
  match goal with |- context [scheduleNextBuffer now ?x] =>
    pose proof (scheduleNextBuffer_neverInPast now x P) as H;
    destruct (scheduleNextBuffer now x) as [s1|s1] end; simpl in *.
  - exact H.
  - apply attemptRecovery_neverInPast. exact H.
Qed.

Lemma fire_neverInPast (t : Timer) (s : AudioStreamer) :
  neverInPast s -> neverInPast (stateOf (fire t s)).
Proof.
  intros P. destruct t as [now|now|]; simpl.
  - destruct (pendingSchedules (host s)); [exact P|].
    apply scheduleNextBuffer_neverInPast. exact P.
  - destruct (checkInterval (this s)); [|exact P].
    destruct (audioQueue (this s)); [exact P|].
    apply scheduleNextBuffer_neverInPast. exact P.
  - destruct (pendingRebuilds (host s)); exact P.
Qed.

Lemma step_neverInPast (s : AudioStreamer) (e : Event) :
  neverInPast s -> neverInPast (step s e).
Proof.
  intros P. destruct e; simpl.
  - now apply addPCM16_neverInPast.
  - exact P.
  - exact P.
  - now apply fire_neverInPast.
Qed.

Lemma run_neverInPast (events : list Event) :
  forall s, neverInPast s -> neverInPast (run events s).
Proof.
  unfold run. induction events as [|e events IH]; intros s P; simpl.
  - exact P.
  - apply IH, step_neverInPast, P.
Qed.

Lemma duration_nonneg (f : Frame) : 0 <= duration f.
Proof.
  unfold duration, sampleRate, Qdiv. apply Qmult_le_0_compat.
  - change 0 with (inject_Z 0). rewrite <- Zle_Qle. lia.
  - discriminate.
Qed.

Lemma scheduleLoop_scheduledTime (now : Q) (queue : list Frame) :
  forall s,
    let s' := stateOf (scheduleLoop now queue s) in
    scheduledTime (this s') = scheduledTime (this s) \/
    now <= scheduledTime (this s').
Proof.
  induction queue as [|audioData rest IH]; intros s; simpl.
  - now left.
  - destruct (Qltb (scheduledTime (this s)) (now + SCHEDULE_AHEAD_TIME));
      [|now left].
    destruct (nextOutcome (withQueue rest s)) as [o s1] eqn:E.
    assert (E1 : scheduledTime (this s1) = scheduledTime (this s)).
    { unfold nextOutcome in E. simpl in E.
      destruct (behaviour (host s)); inversion E; subst; reflexivity. }
    destruct o.
    + right.
      match goal with |- context [scheduleLoop now rest ?x] =>
        destruct (IH x) as [H|H] end; [|exact H].
      rewrite H. simpl.
      pose proof (Q.le_max_r (scheduledTime (this s1)) now).
      pose proof (duration_nonneg audioData). lra.
    + right.
      match goal with |- context [scheduleLoop now rest ?x] =>
        destruct (IH x) as [H|H] end; [|exact H].
      rewrite H. simpl. lra.
    + simpl. now left.
Qed.

Lemma scheduleNextBuffer_scheduledTime (now : Q) (s : AudioStreamer) :
  let s' := stateOf (scheduleNextBuffer now s) in
  scheduledTime (this s') = scheduledTime (this s) \/
  now <= scheduledTime (this s').
Proof.
  unfold scheduleNextBuffer.
  pose proof (scheduleLoop_scheduledTime now (audioQueue (this s)) s) as H.
  destruct (scheduleLoop now (audioQueue (this s)) s) as [s1|s1]; simpl in *.
  - destruct (audioQueue (this s1)); [destruct (isStreamComplete (this s1))|];
      exact H.
  - exact H.
Qed.

Lemma attemptRecovery_scheduledTime (now : Q) (s : AudioStreamer) :
  let s' := stateOf (attemptRecovery now s) in
  scheduledTime (this s') = scheduledTime (this s) \/
  now <= scheduledTime (this s').
Proof.
  unfold attemptRecovery. simpl.
  destruct (retryCount (this s) <=? 2)%nat; simpl.
  - right. unfold initialBufferTime. lra.
  - now left.
Qed.

Lemma addPCM16_scheduledTime (now : Q) (chunk : list byte) (s : AudioStreamer) :
  let s' := stateOf (addPCM16 now chunk s) in
  scheduledTime (this s') = scheduledTime (this s) \/
  now <= scheduledTime (this s').
Proof.
  unfold addPCM16.
  set (q := audioQueue _ ++ splitFrames _). clearbody q. simpl.
  destruct (isPlaying (this s)); [now left|]. right.
  match goal with |- context [scheduleNextBuffer now ?x] =>
    pose proof (scheduleNextBuffer_scheduledTime now x) as H;
    destruct (scheduleNextBuffer now x) as [s1|s1] end; simpl in *.
  - destruct H as [H|H]; [|exact H]. rewrite H.
    unfold initialBufferTime. lra.
  - match goal with |- context [attemptRecovery now ?x] =>
      destruct (attemptRecovery_scheduledTime now x) as [H'|H'] end;
      [|exact H'].
    rewrite H'. simpl. destruct H as [H|H]; [|exact H]. rewrite H.
    unfold initialBufferTime. lra.
Qed.

Lemma step_notSetBehind (s : AudioStreamer) (e : Event) :
  notSetBehind (clockOf e) s (step s e).
Proof.
  unfold notSetBehind.
  destruct e as [now chunk|now|now|[now|now|]]; simpl.
  - destruct (addPCM16_scheduledTime now chunk s) as [H|H];
      [now left|right; eauto].
  - right. exists now. split; [reflexivity|]. lra.
  - right. exists now. split; [reflexivity|]. unfold initialBufferTime. lra.
  - destruct (pendingSchedules (host s)); [now left|].
    match goal with |- context [scheduleNextBuffer now ?x] =>
      destruct (scheduleNextBuffer_scheduledTime now x) as [H|H] end;
      [now left|right; eauto].
  - destruct (checkInterval (this s)); [|now left].
    destruct (audioQueue (this s)); [now left|].
    destruct (scheduleNextBuffer_scheduledTime now s) as [H|H];
      [now left|right; eauto].
  - destruct (pendingRebuilds (host s)); now left.
Qed.

(** C1.  Whatever the platform does and whatever calls and timer callbacks
    occur, at whatever clock readings: every source started so far was
    started at a time not before the clock read when it was started, and
    the next call or callback leaves the scheduled clock untouched or at a
    value not behind its own clock reading. *)
Theorem start_time_never_in_past
  (platform : list Outcome) (events : list Event) (e : Event) :
  let s := run events (newAudioStreamer platform) in
  Forall (fun src => clock src <= when src) (started (host (step s e))) /\
  notSetBehind (clockOf e) s (step s e).
Proof.
  split.
  - apply step_neverInPast, run_neverInPast. constructor.
  - apply step_notSetBehind.
Qed.

End StreamerFacts.

(** ** Stop *)

Section StopFacts.
Import Codec Streamer.

Lemma scheduleNextBuffer_empty (now : Q) (s : AudioStreamer) :
  audioQueue (this s) = [] ->
  audioQueue (this (stateOf (scheduleNextBuffer now s))) = [] /\
  started (host (stateOf (scheduleNextBuffer now s))) = started (host s).
Proof.
  intros E. unfold scheduleNextBuffer. rewrite E. simpl. rewrite E.
  destruct (isStreamComplete (this s)); simpl; auto.
Qed.

Lemma fire_empty (t : Timer) (s : AudioStreamer) :
  audioQueue (this s) = [] ->
  audioQueue (this (stateOf (fire t s))) = [] /\
  started (host (stateOf (fire t s))) = started (host s).
Proof.
  intros E. destruct t as [now|now|]; simpl.
  - destruct (pendingSchedules (host s)); [auto|].
    apply (scheduleNextBuffer_empty now (withPendingSchedules n s)). exact E.
  - destruct (checkInterval (this s)); [|auto]. rewrite E. auto.
  - destruct (pendingRebuilds (host s)); auto.
Qed.

Lemma timers_empty (timers : list Timer) :
  forall s,
    audioQueue (this s) = [] ->
    audioQueue (this (run (map Fires timers) s)) = [] /\
    started (host (run (map Fires timers) s)) = started (host s).
Proof.
  unfold run. induction timers as [|t timers IH]; intros s E; simpl.
  - auto.
  - destruct (fire_empty t s E) as [Q S].
    destruct (IH _ Q) as [Q' S']. split; [exact Q'|]. now rewrite S'.
Qed.

(** C6.  [stop()], called in any state at clock reading [now], leaves the
    queue empty, the scheduled clock equal to [now] and the scheduler not
    playing; and whatever timer callbacks fire afterwards (those armed by an
    earlier [addPCM16] included), no source is started and the queue stays
    empty. *)
Theorem stop_clears_and_halts
  (s : AudioStreamer) (now : Q) (timers : list Timer) :
  audioQueue (this (stop now s)) = [] /\
  scheduledTime (this (stop now s)) = now /\
  isPlaying (this (stop now s)) = false /\
  audioQueue (this (run (map Fires timers) (stop now s))) = [] /\
  started (host (run (map Fires timers) (stop now s))) = started (host s).
Proof.
  repeat split; try reflexivity.
  - apply timers_empty. reflexivity.
  - destruct (timers_empty timers (stop now s) eq_refl) as [_ H].
    rewrite H. reflexivity.
Qed.

End StopFacts.

(** ** Recovery *)

Section RecoveryFacts.
Import Codec Streamer.

Lemma fatalErrors_logError (e : ConsoleError) (s : AudioStreamer) :
  fatalErrors (logError e s)
  = (fatalErrors s + if isFatal e then 1 else 0)%nat.
Proof.
  unfold fatalErrors, logError. simpl. rewrite filter_app, length_app.
  simpl. destruct (isFatal e); reflexivity.
Qed.

Lemma caughtFailures_logError (e : ConsoleError) (s : AudioStreamer) :
  caughtFailures (logError e s)
  = (caughtFailures s + if isCaught e then 1 else 0)%nat.
Proof.
  unfold caughtFailures, logError. simpl. rewrite filter_app, length_app.
  simpl. destruct (isCaught e); reflexivity.
Qed.

Lemma nextOutcome_books (s s1 : AudioStreamer) (o : Outcome) :
  nextOutcome s = (o, s1) -> books s1 = books s.
Proof.
  unfold nextOutcome. destruct (behaviour (host s)); intros E;
    inversion E; subst; reflexivity.
Qed.

Lemma scheduleLoop_books (now : Q) (queue : list Frame) :
  forall s, books (stateOf (scheduleLoop now queue s)) = books s.
Proof.
  induction queue as [|audioData rest IH]; intros s; simpl.
  - reflexivity.
  - destruct (Qltb (scheduledTime (this s)) (now + SCHEDULE_AHEAD_TIME));
      [|reflexivity].
    destruct (nextOutcome (withQueue rest s)) as [o s1] eqn:E.
    apply nextOutcome_books in E.
    assert (E' : books s1 = books s) by (rewrite E; reflexivity).
    destruct o; simpl.
    + rewrite IH. rewrite <- E'. reflexivity.
    + rewrite IH. rewrite <- E'.
      transitivity (books (logError ErrStartingSource s1)); [reflexivity|].
      unfold books.
      rewrite fatalErrors_logError, caughtFailures_logError. simpl.
      now rewrite !Nat.add_0_r.
    + exact E'.
Qed.

Lemma scheduleNextBuffer_books (now : Q) (s : AudioStreamer) :
  books (stateOf (scheduleNextBuffer now s)) = books s.
Proof.
  unfold scheduleNextBuffer.
  pose proof (scheduleLoop_books now (audioQueue (this s)) s) as H.
  destruct (scheduleLoop now (audioQueue (this s)) s) as [s1|s1]; simpl in *.
  - destruct (audioQueue (this s1)); [destruct (isStreamComplete (this s1))|];
      exact H.
  - exact H.
Qed.

(** [attemptRecovery] counts the failure, and logs the fatal error exactly
    when the count has passed [maxRetries]. *)
Lemma attemptRecovery_books (now : Q) (s : AudioStreamer) :
  books (stateOf (attemptRecovery now s))
  = (S (retryCount (this s)),
     (fatalErrors s + if (S (retryCount (this s)) <=? maxRetries)%nat then 0 else 1)%nat,
     caughtFailures s).
Proof.
  unfold attemptRecovery. simpl.
  destruct (retryCount (this s) <=? 2)%nat; simpl.
  - unfold books. simpl. now rewrite Nat.add_0_r.
  - unfold books. simpl.
    change (fatalErrors (logError MaxRecoveryReached
              (withRetryCount (S (retryCount (this s))) s)))
      with (fatalErrors (logError MaxRecoveryReached s)).
    change (caughtFailures (logError MaxRecoveryReached
              (withRetryCount (S (retryCount (this s))) s)))
      with (caughtFailures (logError MaxRecoveryReached s)).
    rewrite fatalErrors_logError, caughtFailures_logError. simpl.
    now rewrite Nat.add_0_r.
Qed.

Lemma budgetKept_books (s s' : AudioStreamer) :
  books s' = books s -> budgetKept s -> budgetKept s'.
Proof.
  unfold books, budgetKept. intros E [A B]. inversion E. lia.
Qed.

Lemma addPCM16_budgetKept (now : Q) (chunk : list byte) (s : AudioStreamer) :
  budgetKept s -> budgetKept (stateOf (addPCM16 now chunk s)).
Proof.
  intros P. unfold addPCM16.
  set (q := audioQueue _ ++ splitFrames _). clearbody q. simpl.
  destruct (isPlaying (this s)); [exact P|].
  match goal with |- context [scheduleNextBuffer now ?x] =>
    pose proof (scheduleNextBuffer_books now x) as H;
    destruct (scheduleNextBuffer now x) as [s1|s1] end; simpl in *.
  - revert P. apply budgetKept_books. exact H.
  - simpl in H. pose proof (attemptRecovery_books now (logError ErrAddingPCM16 s1)) as R.
    rewrite fatalErrors_logError, caughtFailures_logError in R. simpl in R.
    assert (H' : books s1 = books s) by exact H. clear H.
    unfold books in H', R. unfold budgetKept in *.
    inversion H' as [[H1 H2 H3]]. inversion R as [[R1 R2 R3]].
    unfold maxRetries in *.
    destruct (retryCount (this s1) <=? 2)%nat eqn:L;
      [apply Nat.leb_le in L | apply Nat.leb_gt in L]; lia.
Qed.

Lemma step_budgetKept (s : AudioStreamer) (e : Event) :
  budgetKept s -> budgetKept (step s e).
Proof.
  intros P. destruct e as [now chunk|now|now|[now|now|]]; simpl.
  - now apply addPCM16_budgetKept.
  - exact P.
  - exact P.
  - destruct (pendingSchedules (host s)); [exact P|].
    revert P. apply budgetKept_books.
    now rewrite scheduleNextBuffer_books.
  - destruct (checkInterval (this s)); [|exact P].
    destruct (audioQueue (this s)); [exact P|].
    revert P. apply budgetKept_books.
    now rewrite scheduleNextBuffer_books.
  - destruct (pendingRebuilds (host s)); exact P.
Qed.

(** The two ways [attemptRecovery] ends.  Within the budget it calls
    [stop()], which assigns [this.audioQueue = []], builds a new gain node
    and re-primes the clock; its test for "any remaining buffers" then
    finds none.  Beyond the budget it only logs. *)
Lemma attemptRecovery_cases (now : Q) (s : AudioStreamer) :
  attemptRecovery now s
  = if (S (retryCount (this s)) <=? maxRetries)%nat then
      Returned
        (withScheduledTime (now + initialBufferTime)
           (withStreamComplete false
              (withPlaying false
                 (createGain
                    (stop now (withRetryCount (S (retryCount (this s))) s))))))
    else
      Returned
        (logError MaxRecoveryReached
           (withRetryCount (S (retryCount (this s))) s)).
Proof.
  unfold attemptRecovery. simpl.
  destruct (retryCount (this s) <=? 2)%nat; reflexivity.
Qed.

(** C4, as amended.  Whatever the platform does and whatever calls and
    callbacks occur: the retry counter equals the number of failures caught
    by [addPCM16], and the number of "Max recovery attempts reached" errors
    logged is that number minus [maxRetries] (zero up to [maxRetries]
    failures, then one more per failure).  The next failure is answered by
    a recovery attempt when the counter is still below [maxRetries], and
    otherwise only counted and logged: there is no terminal state and no
    once-only guard. *)
Theorem fatal_error_per_failure_beyond_budget
  (platform : list Outcome) (events : list Event) (now : Q) :
  let s := run events (newAudioStreamer platform) in
  retryCount (this s) = caughtFailures s /\
  fatalErrors s = (caughtFailures s - maxRetries)%nat /\
  attemptRecovery now s
  = if (S (retryCount (this s)) <=? maxRetries)%nat then
      Returned
        (withScheduledTime (now + initialBufferTime)
           (withStreamComplete false
              (withPlaying false
                 (createGain
                    (stop now (withRetryCount (S (retryCount (this s))) s))))))
    else
      Returned
        (logError MaxRecoveryReached
           (withRetryCount (S (retryCount (this s))) s)).
Proof.
  cbv zeta. rewrite <- and_assoc. split; [|apply attemptRecovery_cases].
  change (budgetKept (run events (newAudioStreamer platform))).
  generalize (newAudioStreamer platform), (conj eq_refl eq_refl
    : budgetKept (newAudioStreamer platform)).
  unfold run. induction events as [|e events IH]; intros s P; simpl.
  - exact P.
  - apply IH, step_budgetKept, P.
Qed.

(** C4 as stated fails.  After three consecutive failures ([maxRetries] is
    3) no fatal error has been logged, and after five there are two. *)
Lemma fatal_error_counterexample :
  caughtFailures (run threeFailures (newAudioStreamer failingPlatform)) = 3%nat /\
  fatalErrors (run threeFailures (newAudioStreamer failingPlatform)) = 0%nat /\
  caughtFailures (run fiveFailures (newAudioStreamer failingPlatform)) = 5%nat /\
  fatalErrors (run fiveFailures (newAudioStreamer failingPlatform)) = 2%nat.
Proof. vm_compute. repeat split; reflexivity. Qed.

(** C5 fails on the code.  [addPCM16] receives 15362 bytes, which it queues
    as a frame of 7680 samples and a frame of one sample; building the
    first buffer throws; the one recovery attempt that follows (the first
    of three allowed) leaves the queue empty although the second frame was
    still queued, and nothing has been started. *)
Theorem recovery_drops_queued_frames :
  map (@List.length Q) (splitFrames (_processPCM16Chunk longChunk))
    = [Z.to_nat 7680; 1%nat] /\
  (exists s1,
      scheduleNextBuffer 0
        (withScheduledTime (0 + initialBufferTime)
           (withPlaying true
              (withQueue (splitFrames (_processPCM16Chunk longChunk))
                 (newAudioStreamer [NodeThrows]))))
      = Threw s1 /\
      map (@List.length Q) (audioQueue (this s1)) = [1%nat] /\
      audioQueue (this (stateOf (attemptRecovery 0 (logError ErrAddingPCM16 s1)))) = []) /\
  audioQueue (this (run [AddPCM16 0 longChunk] (newAudioStreamer [NodeThrows]))) = [] /\
  started (host (run [AddPCM16 0 longChunk] (newAudioStreamer [NodeThrows]))) = [] /\
  retryCount (this (run [AddPCM16 0 longChunk] (newAudioStreamer [NodeThrows]))) = 1%nat.
Proof.
  split; [vm_compute; reflexivity|]. split.
  - eexists. split; [vm_compute; reflexivity|].
    split; vm_compute; reflexivity.
  - vm_compute. repeat split; reflexivity.
Qed.

End RecoveryFacts.

(** ** Chunking *)

Section ChunkingFacts.
Import Codec Streamer.








(** On a platform that never throws, the scheduling loop moves frames from
    the head of the queue to the end of the started sources. *)
Lemma scheduleLoop_frames (now : Q) (queue : list Frame) :
  forall s,
    behaviour (host s) = [] -> audioQueue (this s) = queue ->
    exists s',
      scheduleLoop now queue s = Returned s' /\
      frames s' = frames s /\ behaviour (host s') = [].
Proof.
  induction queue as [|audioData rest IH]; intros s B E; simpl.
  - eauto.
  - destruct (Qltb (scheduledTime (this s)) (now + SCHEDULE_AHEAD_TIME));
      [|eauto].
    unfold nextOutcome. simpl. rewrite B.
    match goal with |- context [scheduleLoop now rest ?x] =>
      destruct (IH x) as [s' [R [F B']]]; [exact B|reflexivity|] end.
    exists s'. split; [exact R|]. split; [|exact B'].
    rewrite F. unfold frames. simpl. rewrite E, map_app, <- app_assoc.
    reflexivity.
Qed.

Lemma scheduleNextBuffer_frames (now : Q) (s : AudioStreamer) :
  behaviour (host s) = [] ->
  exists s',
    scheduleNextBuffer now s = Returned s' /\
    frames s' = frames s /\ behaviour (host s') = [].
Proof.
  intros B. unfold scheduleNextBuffer.
  destruct (scheduleLoop_frames now (audioQueue (this s)) s B eq_refl)
    as [s1 [R [F B1]]].
  rewrite R.
  destruct (audioQueue (this s1)) eqn:E;
    [destruct (isStreamComplete (this s1))|];
    eexists; (split; [reflexivity|]); split; try exact B1;
    rewrite <- F; unfold frames; simpl; rewrite ?E; reflexivity.
Qed.

Lemma addPCM16_frames (now : Q) (chunk : list byte) (s : AudioStreamer) :
  behaviour (host s) = [] ->
  frames (stateOf (addPCM16 now chunk s))
  = frames s ++ splitFrames (_processPCM16Chunk chunk) /\
  behaviour (host (stateOf (addPCM16 now chunk s))) = [].
Proof.
  intros B. unfold addPCM16.
  set (new := splitFrames _). clearbody new. simpl.
  destruct (isPlaying (this s)).
  - simpl. split; [|exact B]. unfold frames. simpl. now rewrite app_assoc.
  - match goal with |- context [scheduleNextBuffer now ?x] =>
      destruct (scheduleNextBuffer_frames now x B) as [s' [R [F B']]] end.
    rewrite R. simpl. split; [|exact B'].
    rewrite F. unfold frames. simpl. now rewrite app_assoc.
Qed.






End ChunkingFacts.

(** ** Gapless scheduling *)

Section SchedulingFacts.
Import Codec Streamer.


(** The loop waits when the next slot lies beyond the window. *)
Lemma scheduleLoop_wait (now : Q) (queue : list Frame) (s : AudioStreamer) :
  now + SCHEDULE_AHEAD_TIME <= scheduledTime (this s) ->
  scheduleLoop now queue s = Returned s.
Proof.
  intros H. destruct queue as [|f rest]; [reflexivity|]. simpl.
  apply Qltb_false in H. now rewrite H.
Qed.




(** [addPCM16] while playing only appends to the queue. *)
Lemma addPCM16_playing (now : Q) (chunk : list byte) (s : AudioStreamer) :
  isPlaying (this s) = true ->
  addPCM16 now chunk s
  = Returned (withQueue (audioQueue (this s)
                           ++ splitFrames (_processPCM16Chunk chunk))
                        (withStreamComplete false s)).
Proof. intros P. unfold addPCM16. simpl. now rewrite P. Qed.




End SchedulingFacts.

(** ** Capture bridge *)

Section RecorderFacts.
Import Recorder.

(** Every [start()] that finds [getUserMedia] asks for the microphone and
    makes a promise of its own. *)
Lemma start_requests (s : AudioRecorder) :
  mediaDevices (host s) = true ->
  requests (host (fst (start s))) = S (requests (host s)) /\
  snd (start s) = StartReturns (List.length (promises (host s))) /\
  starting (this (fst (start s))) = Some (List.length (promises (host s))).
Proof. intros M. unfold start. rewrite M. simpl. auto. Qed.

(** C7, as amended.  Each [start()] call begins an initialization of its
    own, with its own [getUserMedia] request and its own promise: calls that
    overlap are not merged.  With one [start()] in flight, a [stop()] made
    at any of its four suspension points is deferred until it resolves; the
    microphone is then acquired once and released once, and the bridge ends
    idle. *)
Theorem stop_during_start :
  (forall s : AudioRecorder,
      mediaDevices (host s) = true ->
      requests (host (fst (start s))) = S (requests (host s)) /\
      starting (this (fst (start s))) = Some (List.length (promises (host s)))) /\
  (forall k : nat,
      (k <= 3)%nat ->
      let s := run ([CallStart] ++ repeat (Resumes 0 None) k ++ [CallStop]
                      ++ repeat (Resumes 0 None) (4 - k))
                   (newAudioRecorder true) in
      requests (host s) = 1%nat /\ granted (host s) = 1%nat /\
      stoppedTracks (host s) = [0%nat] /\
      nth_error (promises (host s)) 0 = Some Fulfilled /\
      starting (this s) = None /\ Idle s).
Proof.
  split.
  - intros s M. destruct (start_requests s M) as [A [_ B]]. auto.
  - intros k Hk.
    assert (K : (k = 0 \/ k = 1 \/ k = 2 \/ k = 3)%nat) by lia.
    destruct K as [ -> | [ -> | [ -> | -> ] ] ]; vm_compute; repeat split; reflexivity.
Qed.

Lemma stop_during_start_witness :
  requests (host (fst (start (newAudioRecorder true)))) = 1%nat /\
  stoppedTracks
    (host (run [CallStart; Resumes 0 None; Resumes 0 None; CallStop;
                Resumes 0 None; Resumes 0 None]
               (newAudioRecorder true))) = [0%nat].
Proof.
  split.
  - apply (proj1 stop_during_start (newAudioRecorder true)). reflexivity.
  - apply (proj2 stop_during_start 2%nat). lia.
Defined.

(** C7 as stated fails: two overlapping [start()] calls request the
    microphone twice, make two promises, and once both requests are granted
    two streams are held. *)
Lemma overlapping_start_counterexample :
  starting (this (run [CallStart] (newAudioRecorder true))) = Some 0%nat /\
  starting (this (run [CallStart; CallStart] (newAudioRecorder true))) = Some 1%nat /\
  requests (host (run [CallStart; CallStart] (newAudioRecorder true))) = 2%nat /\
  granted (host (run [CallStart; CallStart; Resumes 0 None; Resumes 1 None]
                     (newAudioRecorder true))) = 2%nat /\
  liveTracks (host (run [CallStart; CallStart; Resumes 0 None; Resumes 1 None]
                        (newAudioRecorder true))) = [0%nat; 1%nat].
Proof. vm_compute. repeat split; reflexivity. Qed.

Lemma nth_error_setNth {A} (l : list A) (x y : A) :
  nth_error (setNth (List.length l) y (l ++ [x])) (List.length l) = Some y.
Proof. induction l as [|a l IH]; simpl; [reflexivity|exact IH]. Qed.

(** C8.  On an idle bridge, when [start()] is called and the microphone
    request is rejected because permission is denied or no device is
    present: the promise returned by [start()] is rejected with that very
    error, no initialization is left in flight, no stream was handed out,
    and the bridge is idle as before: no stream handle, no live track, no
    worklet, nothing connected. *)
Theorem start_denied_leaves_idle (s : AudioRecorder) (e : Failure) :
  Idle s -> mediaDevices (host s) = true -> HardwareAccessError e ->
  exists p,
    snd (start s) = StartReturns p /\
    let s' := resumeInit p (Some e) (fst (start s)) in
    nth_error (promises (host s')) p = Some (Rejected e) /\
    starting (this s') = None /\
    phaseOf p (suspended (host s')) = None /\
    granted (host s') = granted (host s) /\
    Idle s'.
Proof.
  intros I M _. exists (List.length (promises (host s))).
  unfold start. rewrite M. simpl. split; [reflexivity|].
  unfold resumeInit. simpl. rewrite Nat.eqb_refl. simpl.
  repeat split; try apply I.
  - apply nth_error_setNth.
  - rewrite Nat.eqb_refl. simpl.
    induction (suspended (host s)) as [|[q ph] l IH]; simpl; [reflexivity|].
    destruct (Nat.eqb (List.length (promises (host s))) q) eqn:E; simpl.
    + exact IH.
    + rewrite E. exact IH.
Qed.

Lemma start_denied_leaves_idle_witness :
  exists p,
    snd (start (newAudioRecorder true)) = StartReturns p /\
    let s' := resumeInit p (Some NotAllowedError) (fst (start (newAudioRecorder true))) in
    nth_error (promises (host s')) p = Some (Rejected NotAllowedError) /\
    starting (this s') = None /\
    phaseOf p (suspended (host s')) = None /\
    granted (host s') = granted (host (newAudioRecorder true)) /\
    Idle s'.
Proof.
  apply (start_denied_leaves_idle (newAudioRecorder true) NotAllowedError).
  - repeat split; reflexivity.
  - reflexivity.
  - left. reflexivity.
Defined.

End RecorderFacts.

(** ** Transport decoding *)

Section Base64Facts.
Import Base64.

Example decodes_Hello :
  base64ToArrayBuffer windowAtob [83; 71; 86; 115; 98; 71; 56; 61]%N
  = Returns ["H"; "e"; "l"; "l"; "o"]%byte.
Proof. reflexivity. Qed.

Example malformed_is_empty :
  windowAtob [83; 71; 86; 115; 98; 71; 56; 61; 61]%N = Throws InvalidCharacterError /\
  base64ToArrayBuffer windowAtob [83; 71; 86; 115; 98; 71; 56; 61; 61]%N = Returns [] /\
  base64ToArrayBuffer windowAtob [64]%N = Returns [].
Proof. repeat split; reflexivity. Qed.

(** C10.  Whatever the platform's [atob] does, [base64ToArrayBuffer]
    returns for every string: the bytes of the decoded string when [atob]
    returns it, and an empty buffer when [atob] throws. *)
Theorem base64ToArrayBuffer_total
  (atob : JSString -> Completion JSString) (base64 : JSString) :
  exists buffer,
    base64ToArrayBuffer atob base64 = Returns buffer /\
    (forall binaryString,
        atob base64 = Returns binaryString -> buffer = charCodes binaryString) /\
    (forall e, atob base64 = Throws e -> buffer = []).
Proof.
  unfold base64ToArrayBuffer, tryCatch, bind.
  destruct (atob base64) as [binaryString|e]; eexists;
    (split; [reflexivity|]); split; intros x H;
    try discriminate; try reflexivity.
  inversion H. reflexivity.
Qed.

End Base64Facts.

(** ** WAV header *)

Section WavFacts.
Import Codec Wav.

Lemma truncate_inject_Z (z : Z) : truncate (inject_Z z) = z.
Proof. unfold truncate. simpl. apply Z.quot_1_r. Qed.

Lemma truncate_eighth (z : Z) : truncate (inject_Z z / 8) = Z.quot z 8.
Proof. unfold truncate. simpl. now rewrite Z.mul_1_r. Qed.

(** The byte stored for bits [k .. k+7] of a value, [k] being 0, 8, 16 or
    24: that byte of the value reduced modulo [2^32]. *)
Lemma stored_byte (value : Q) (k : Z) :
  (k = 0 \/ k = 8 \/ k = 16 \/ k = 24)%Z ->
  byteToZ (byteOfZ (Z.land (Z.shiftr (ToInt32 value) k) 255))
  = (((truncate value mod 4294967296) / 2 ^ k) mod 256)%Z.
Proof.
  intros Hk. rewrite byteToZ_byteOfZ.
  change 255%Z with (Z.ones 8).
  rewrite Z.land_ones by lia. rewrite Z.shiftr_div_pow2 by lia.
  rewrite Z.mod_mod by lia.
  unfold ToInt32.
  set (m := (truncate value mod 4294967296)%Z).
  assert (Hm : (0 <= m < 4294967296)%Z) by (apply Z.mod_pos_bound; lia).
  destruct (Z.leb_spec 2147483648 m) as [H|H]; [|reflexivity].
  destruct Hk as [ -> | [ -> | [ -> | -> ] ] ];
    change (2 ^ 0)%Z with 1%Z; change (2 ^ 8)%Z with 256%Z;
    change (2 ^ 16)%Z with 65536%Z; change (2 ^ 24)%Z with 16777216%Z;
    Z.div_mod_to_equations; lia.
Qed.

Lemma stored_low_byte (value : Q) :
  byteToZ (byteOfZ (Z.land (ToInt32 value) 255))
  = ((truncate value mod 4294967296) mod 256)%Z.
Proof.
  rewrite <- (Z.div_1_r (truncate value mod 4294967296)).
  exact (stored_byte value 0 (or_introl eq_refl)).
Qed.

(** The header, field by field. *)
Lemma createWavHeader_fields
  (pcmDataLength sampleRate numChannels bitsPerSample : Z) :
  createWavHeader pcmDataLength sampleRate numChannels bitsPerSample
  = ["R"; "I"; "F"; "F"]%byte
      ++ int32Bytes (inject_Z (36 + pcmDataLength))
      ++ ["W"; "A"; "V"; "E"; "f"; "m"; "t"; " "]%byte
      ++ int32Bytes 16 ++ int16LowBytes 1
      ++ int16LowBytes (inject_Z numChannels)
      ++ int32Bytes (inject_Z sampleRate)
      ++ int32Bytes (inject_Z (sampleRate * numChannels * bitsPerSample) / 8)
      ++ int16LowBytes (inject_Z (numChannels * bitsPerSample) / 8)
      ++ int16LowBytes (inject_Z bitsPerSample)
      ++ ["d"; "a"; "t"; "a"]%byte
      ++ int32Bytes (inject_Z pcmDataLength).
Proof. reflexivity. Qed.

Lemma nth_after (pre l : list byte) (k : nat) (d : byte) :
  nth (List.length pre + k) (pre ++ l) d = nth k l d.
Proof. induction pre as [|b pre IH]; simpl; [reflexivity|exact IH]. Qed.

Lemma readUint32_int32Bytes (pre post : list byte) (value : Q) (offset : nat) :
  List.length pre = offset ->
  readUint32 (pre ++ int32Bytes value ++ post) offset
  = (truncate value mod 4294967296)%Z.
Proof.
  intros <-. unfold readUint32, byteAt.
  rewrite <- (Nat.add_0_r (List.length pre)) at 1.
  rewrite !nth_after. cbn [int32Bytes app nth].
  rewrite stored_low_byte, !stored_byte by auto.
  set (m := (truncate value mod 4294967296)%Z).
  assert (Hm : (0 <= m < 4294967296)%Z) by (apply Z.mod_pos_bound; lia).
  change (2 ^ 8)%Z with 256%Z; change (2 ^ 16)%Z with 65536%Z;
    change (2 ^ 24)%Z with 16777216%Z.
  Z.div_mod_to_equations. lia.
Qed.

Lemma readUint16_int16LowBytes (pre post : list byte) (value : Q) (offset : nat) :
  List.length pre = offset ->
  readUint16 (pre ++ int16LowBytes value ++ post) offset
  = ((truncate value mod 4294967296) mod 65536)%Z.
Proof.
  intros <-. unfold readUint16, byteAt.
  rewrite <- (Nat.add_0_r (List.length pre)) at 1.
  rewrite !nth_after. cbn [int16LowBytes app nth].
  rewrite stored_low_byte, !stored_byte by auto.
  set (m := (truncate value mod 4294967296)%Z).
  assert (Hm : (0 <= m < 4294967296)%Z) by (apply Z.mod_pos_bound; lia).
  change (2 ^ 8)%Z with 256%Z.
  Z.div_mod_to_equations. lia.
Qed.

Ltac read32 k v :=
  match goal with
  | |- context [readUint32 ?h k] =>
      change (readUint32 h k)
        with (readUint32 (firstn k h ++ int32Bytes v ++ skipn (k + 4) h) k);
      rewrite (readUint32_int32Bytes (firstn k h) (skipn (k + 4) h) v k)
        by reflexivity
  end.

Ltac read16 k v :=
  match goal with
  | |- context [readUint16 ?h k] =>
      change (readUint16 h k)
        with (readUint16 (firstn k h ++ int16LowBytes v ++ skipn (k + 2) h) k);
      rewrite (readUint16_int16LowBytes (firstn k h) (skipn (k + 2) h) v k)
        by reflexivity
  end.

(** For all integer arguments the header has 44 bytes, carries the chunk
    identifiers "RIFF", "WAVE", "fmt " and "data" at offsets 0, 8, 12 and
    36, a format chunk size of 16 and the format tag 1 (PCM). *)
Theorem wav_header_layout
  (pcmDataLength sampleRate numChannels bitsPerSample : Z) :
  let header := createWavHeader pcmDataLength sampleRate numChannels bitsPerSample in
  List.length header = 44%nat /\
  firstn 4 header = ["R"; "I"; "F"; "F"]%byte /\
  firstn 8 (skipn 8 header) = ["W"; "A"; "V"; "E"; "f"; "m"; "t"; " "]%byte /\
  firstn 4 (skipn 36 header) = ["d"; "a"; "t"; "a"]%byte /\
  readUint32 header 16 = 16%Z /\
  readUint16 header 20 = 1%Z.
Proof.
  cbv zeta. rewrite createWavHeader_fields. repeat split.
Qed.

(** The two length fields hold the arguments reduced modulo [2^32]. *)
Lemma wav_length_fields_wrap
  (pcmDataLength sampleRate numChannels bitsPerSample : Z) :
  let header := createWavHeader pcmDataLength sampleRate numChannels bitsPerSample in
  readUint32 header 40 = (pcmDataLength mod 4294967296)%Z /\
  readUint32 header 4 = ((36 + pcmDataLength) mod 4294967296)%Z.
Proof.
  cbv zeta. rewrite createWavHeader_fields. split.
  - read32 40%nat (inject_Z pcmDataLength). now rewrite truncate_inject_Z.
  - read32 4%nat (inject_Z (36 + pcmDataLength)). now rewrite truncate_inject_Z.
Qed.

(** For a data length that fits the RIFF size field, a reader gets back the
    data length at offset 40 and the data length plus 36 at offset 4. *)
Theorem wav_length_fields
  (pcmDataLength sampleRate numChannels bitsPerSample : Z) :
  (0 <= pcmDataLength <= 4294967259)%Z ->
  let header := createWavHeader pcmDataLength sampleRate numChannels bitsPerSample in
  readUint32 header 40 = pcmDataLength /\
  readUint32 header 4 = (36 + pcmDataLength)%Z.
Proof.
  intros H. cbv zeta.
  destruct (wav_length_fields_wrap pcmDataLength sampleRate numChannels bitsPerSample)
    as [A B].
  rewrite A, B. rewrite !Z.mod_small by lia. auto.
Qed.

Lemma wav_length_fields_witness :
  readUint32 (createWavHeader 3200 16000 1 16) 40 = 3200%Z /\
  readUint32 (createWavHeader 3200 16000 1 16) 4 = 3236%Z.
Proof. apply (wav_length_fields 3200 16000 1 16). lia. Defined.

(** A data length of [2^32 - 36] or more does not fit: the RIFF size field
    wraps around.  With [2^32 - 36] bytes of data it reads 0. *)
Example wav_length_wraps :
  readUint32 (createWavHeader 4294967260 16000 1 16) 4 = 0%Z.
Proof.
  destruct (wav_length_fields_wrap 4294967260 16000 1 16) as [_ B].
  rewrite B. reflexivity.
Qed.

(** The format fields.  For a whole number of bytes per sample and
    arguments that fit their fields, a reader gets back the channel count,
    the sample rate and the bits per sample, the block alignment is
    channels times bytes per sample, and the byte rate is the sample rate
    times the block alignment. *)
Theorem wav_format_fields
  (pcmDataLength sampleRate numChannels bytesPerSample : Z) :
  (0 <= sampleRate < 4294967296)%Z ->
  (0 <= numChannels)%Z -> (0 <= bytesPerSample)%Z ->
  (8 * bytesPerSample < 65536)%Z -> (numChannels < 65536)%Z ->
  (numChannels * bytesPerSample < 65536)%Z ->
  (sampleRate * (numChannels * bytesPerSample) < 4294967296)%Z ->
  let header :=
    createWavHeader pcmDataLength sampleRate numChannels (8 * bytesPerSample) in
  readUint16 header 22 = numChannels /\
  readUint32 header 24 = sampleRate /\
  readUint16 header 34 = (8 * bytesPerSample)%Z /\
  readUint16 header 32 = (numChannels * bytesPerSample)%Z /\
  readUint32 header 28 = (sampleRate * readUint16 header 32)%Z.
Proof.
  intros Hs Hc Hb Hb' Hc' Ha Hr. cbv zeta. rewrite createWavHeader_fields.
  assert (A : readUint16
                (["R"; "I"; "F"; "F"]%byte
                   ++ int32Bytes (inject_Z (36 + pcmDataLength))
                   ++ ["W"; "A"; "V"; "E"; "f"; "m"; "t"; " "]%byte
                   ++ int32Bytes 16 ++ int16LowBytes 1
                   ++ int16LowBytes (inject_Z numChannels)
                   ++ int32Bytes (inject_Z sampleRate)
                   ++ int32Bytes
                        (inject_Z (sampleRate * numChannels * (8 * bytesPerSample)) / 8)
                   ++ int16LowBytes (inject_Z (numChannels * (8 * bytesPerSample)) / 8)
                   ++ int16LowBytes (inject_Z (8 * bytesPerSample))
                   ++ ["d"; "a"; "t"; "a"]%byte
                   ++ int32Bytes (inject_Z pcmDataLength)) 32
              = (numChannels * bytesPerSample)%Z).
  { read16 32%nat (inject_Z (numChannels * (8 * bytesPerSample)) / 8).
    rewrite truncate_eighth.
    replace (numChannels * (8 * bytesPerSample))%Z
      with (numChannels * bytesPerSample * 8)%Z by ring.
    rewrite Z.quot_mul by lia.
    rewrite (Z.mod_small _ 4294967296) by nia. apply Z.mod_small. nia. }
  split; [|split; [|split; [|split]]].
  - read16 22%nat (inject_Z numChannels). rewrite truncate_inject_Z.
    rewrite (Z.mod_small _ 4294967296) by lia. apply Z.mod_small. lia.
  - read32 24%nat (inject_Z sampleRate). rewrite truncate_inject_Z.
    apply Z.mod_small. lia.
  - read16 34%nat (inject_Z (8 * bytesPerSample)). rewrite truncate_inject_Z.
    rewrite (Z.mod_small _ 4294967296) by lia. apply Z.mod_small. lia.
  - exact A.
  - rewrite A.
    read32 28%nat (inject_Z (sampleRate * numChannels * (8 * bytesPerSample)) / 8).
    rewrite truncate_eighth.
    replace (sampleRate * numChannels * (8 * bytesPerSample))%Z
      with (sampleRate * (numChannels * bytesPerSample) * 8)%Z by ring.
    rewrite Z.quot_mul by lia.
    apply Z.mod_small. nia.
Qed.

Lemma wav_format_fields_witness :
  readUint16 (createWavHeader 3200 16000 1 (8 * 2)) 32 = (1 * 2)%Z /\
  readUint32 (createWavHeader 3200 16000 1 (8 * 2)) 28
  = (16000 * readUint16 (createWavHeader 3200 16000 1 (8 * 2)) 32)%Z.
Proof.
  pose proof (wav_format_fields 3200 16000 1 2) as H.
  cbv zeta in H. apply H; lia.
Defined.

End WavFacts.

(** ** Capture worklet *)

Section WorkletFacts.
Import Codec Worklet.

Lemma firstn_exact {A} (l1 l2 : list A) (n : nat) :
  List.length l1 = n -> firstn n (l1 ++ l2) = l1.
Proof.
  intros <-. induction l1 as [|a l1 IH]; simpl.
  - now destruct l2.
  - now rewrite IH.
Qed.

Lemma skipn_exact {A} (l1 l2 : list A) (n k : nat) :
  List.length l1 = n -> skipn (n + k) (l1 ++ l2) = skipn k l2.
Proof. intros <-. induction l1 as [|a l1 IH]; simpl; auto. Qed.

(** The merging loop writes the buffers one after the other. *)
Lemma mergeLoop_spec (buffers : list (list Q)) :
  forall offset merged,
    (offset + List.length (concat buffers) <= List.length merged)%nat ->
    mergeLoop buffers offset merged
    = firstn offset merged ++ concat buffers
        ++ skipn (offset + List.length (concat buffers)) merged.
Proof.
  induction buffers as [|b rest IH]; intros offset merged H; simpl in *.
  - rewrite Nat.add_0_r. symmetry. apply firstn_skipn.
  - rewrite length_app in H.
    assert (L : List.length (firstn offset merged) = offset)
      by (apply firstn_length_le; lia).
    assert (L' : List.length (firstn offset merged ++ b)
                 = (offset + List.length b)%nat)
      by (rewrite length_app, L; reflexivity).
    assert (E : setAt offset b merged
                = (firstn offset merged ++ b)
                    ++ skipn (offset + List.length b) merged)
      by (unfold setAt; now rewrite app_assoc).
    rewrite IH.
    + rewrite E, firstn_exact by exact L'.
      rewrite skipn_exact by exact L'.
      rewrite skipn_skipn, length_app, <- !app_assoc.
      do 4 f_equal. lia.
    + rewrite E, length_app, L', length_skipn. lia.
Qed.

(** Under the invariant of the processor the merged buffer is the
    concatenation of the buffers, and [set] always fits. *)
Lemma merge_is_concat (buffers : list (list Q)) :
  mergeLoop buffers 0 (repeat 0 (List.length (concat buffers)))
  = concat buffers.
Proof.
  rewrite mergeLoop_spec by (rewrite repeat_length; lia).
  simpl. rewrite skipn_all2 by (rewrite repeat_length; lia).
  apply app_nil_r.
Qed.

Lemma process_cases (inputs : list (list (list Q))) (p : AudioRecorderProcessor) :
  pendingOk p ->
  let total := (_frameCount p + List.length (captured inputs))%nat in
  (inputs = [] \/ exists rest, inputs = [] :: rest) /\ process inputs p = p \/
  (exists buffer more rest, inputs = (buffer :: more) :: rest) /\
  ((total < 1600)%nat /\
   process inputs p
   = {| _buffers := _buffers p ++ [captured inputs]; _frameCount := total;
        posted := posted p |} \/
   (1600 <= total)%nat /\
   process inputs p
   = {| _buffers := []; _frameCount := 0;
        posted := posted p
                    ++ [_convertToInt16 (concat (_buffers p) ++ captured inputs)] |}).
Proof.
  intros [F B].
  destruct inputs as [|[|buffer more] rest];
    cbn -[Nat.leb mergeLoop repeat].
  - left. auto.
  - left. split; [right; eauto|reflexivity].
  - right. split; [eauto|].
    destruct (Nat.leb_spec 1600 (_frameCount p + List.length buffer)).
    + right. split; [assumption|]. do 3 f_equal.
      replace (_frameCount p + List.length buffer)%nat
        with (List.length (concat (_buffers p ++ [buffer]))).
      * rewrite merge_is_concat, concat_app. simpl. now rewrite app_nil_r.
      * rewrite concat_app, length_app. simpl. rewrite app_nil_r. lia.
    + left. auto.
Qed.

(** One callback: the invariant is kept, no sample is lost or reordered,
    and a message, when one is posted, carries all pending samples. *)
Lemma process_step (inputs : list (list (list Q))) (p : AudioRecorderProcessor) :
  pendingOk p ->
  pendingOk (process inputs p) /\
  concat (posted (process inputs p))
    ++ _convertToInt16 (concat (_buffers (process inputs p)))
  = concat (posted p)
      ++ _convertToInt16 (concat (_buffers p) ++ captured inputs) /\
  (posted (process inputs p) = posted p \/
   exists m,
     posted (process inputs p) = posted p ++ [m] /\
     List.length m = (_frameCount p + List.length (captured inputs))%nat /\
     (1600 <= List.length m)%nat).
Proof.
  intros P. pose proof P as [F B].
  destruct (process_cases inputs p P) as [[N ->]|[_ [[L ->]|[L ->]]]].
  - assert (C : captured inputs = [])
      by (destruct N as [ -> | [rest ->] ]; reflexivity).
    rewrite C, app_nil_r. auto.
  - unfold pendingOk. cbn [_buffers _frameCount posted].
    split; [|split; [|now left]].
    + split; [|exact L].
      rewrite concat_app, length_app. simpl. rewrite app_nil_r. lia.
    + rewrite concat_app. simpl. now rewrite app_nil_r.
  - unfold pendingOk. cbn [_buffers _frameCount posted]. split; [|split].
    + split; [reflexivity|lia].
    + rewrite concat_app. simpl. now rewrite !app_nil_r.
    + right. eexists. split; [reflexivity|].
      unfold _convertToInt16. rewrite length_map, length_app, <- F.
      split; [reflexivity|exact L].
Qed.

Lemma render_conserves (calls : list (list (list (list Q)))) :
  forall p,
    pendingOk p ->
    pendingOk (render calls p) /\
    concat (posted (render calls p))
      ++ _convertToInt16 (concat (_buffers (render calls p)))
    = concat (posted p)
        ++ _convertToInt16 (concat (_buffers p) ++ concat (map captured calls)).
Proof.
  unfold render. induction calls as [|inputs calls IH]; intros p P; simpl.
  - rewrite app_nil_r. auto.
  - destruct (process_step inputs p P) as [P' [E _]].
    destruct (IH _ P') as [P'' E'']. split; [exact P''|].
    rewrite E''. unfold _convertToInt16 in *.
    rewrite map_app, app_assoc, E, <- app_assoc, <- !map_app.
    now rewrite <- app_assoc.
Qed.

(** Whatever the render callbacks bring, the int16 samples posted so far
    followed by the conversion of the samples still pending are the
    conversion of all captured samples, in order; fewer than 1600 samples
    are pending, and [_frameCount] counts them. *)
Theorem worklet_conserves_samples (calls : list (list (list (list Q)))) :
  let p := render calls newProcessor in
  concat (posted p) ++ _convertToInt16 (concat (_buffers p))
  = _convertToInt16 (concat (map captured calls)) /\
  _frameCount p = List.length (concat (_buffers p)) /\
  (_frameCount p < 1600)%nat.
Proof.
  assert (P0 : pendingOk newProcessor) by (split; simpl; lia).
  destruct (render_conserves calls newProcessor P0) as [[F B] E].
  cbv zeta. rewrite E. auto.
Qed.

Lemma render_sizes (n : nat) (calls : list (list (list (list Q)))) :
  Forall (fun inputs => List.length (captured inputs) <= n)%nat calls ->
  forall p,
    pendingOk p ->
    Forall (fun m => 1600 <= List.length m < 1600 + n)%nat (posted p) ->
    Forall (fun m => 1600 <= List.length m < 1600 + n)%nat
      (posted (render calls p)).
Proof.
  unfold render. induction 1 as [|inputs calls Hn _ IH]; intros p P S; simpl.
  - exact S.
  - destruct (process_step inputs p P) as [P' [_ [E|[m [E [L G]]]]]];
      apply IH; try exact P'; rewrite E; [exact S|].
    apply Forall_app. split; [exact S|].
    constructor; [|constructor]. destruct P as [_ B]. lia.
Qed.

(** When no callback brings more than [n] samples, every message carries
    at least 1600 and fewer than [1600 + n] samples. *)
Theorem worklet_message_size (n : nat) (calls : list (list (list (list Q)))) :
  Forall (fun inputs => List.length (captured inputs) <= n)%nat calls ->
  Forall (fun m => 1600 <= List.length m < 1600 + n)%nat
    (posted (render calls newProcessor)).
Proof.
  intros H. apply (render_sizes n calls H).
  - split; simpl; lia.
  - constructor.
Qed.

Lemma worklet_message_size_witness :
  Forall (fun m => 1600 <= List.length m < 1600 + 1000)%nat
    (posted (render [[[repeat (1 # 2) 1000]]; [[repeat (1 # 4) 700]]]
               newProcessor)).
Proof.
  apply (worklet_message_size 1000).
  repeat constructor; vm_compute; discriminate.
Defined.

Lemma render_quantum (calls : list (list (list (list Q)))) :
  Forall (fun inputs => List.length (captured inputs) = 128%nat
                        \/ captured inputs = []) calls ->
  forall p,
    pendingOk p -> (exists k, _frameCount p = 128 * k)%nat ->
    Forall (fun m => List.length m = 1664%nat) (posted p) ->
    Forall (fun m => List.length m = 1664%nat) (posted (render calls p)).
Proof.
  unfold render. induction 1 as [|inputs calls Hn _ IH]; intros p P K Hs; simpl.
  - exact Hs.
  - destruct K as [k K].
    assert (C : (List.length (captured inputs) = 128
                 \/ List.length (captured inputs) = 0)%nat)
      by (destruct Hn as [ -> | -> ]; auto).
    pose proof P as [F B].
    destruct (process_cases inputs p P) as [[N E]|[_ [[L E]|[L E]]]];
      rewrite E; apply IH.
    + exact P.
    + eauto.
    + exact Hs.
    + rewrite <- E. apply process_step, P.
    + cbn [_frameCount]. destruct C as [C|C]; rewrite C;
        [exists (S k)|exists k]; lia.
    + exact Hs.
    + rewrite <- E. apply process_step, P.
    + exists 0%nat. reflexivity.
    + cbn [posted]. apply Forall_app. split; [exact Hs|].
      constructor; [|constructor].
      unfold _convertToInt16. rewrite length_map, length_app, <- F. lia.
Qed.

(** With the render quantum of 128 samples every message carries exactly
    1664 samples, thirteen quanta, not 1600. *)
Theorem worklet_quantum_message (calls : list (list (list (list Q)))) :
  Forall (fun inputs => List.length (captured inputs) = 128%nat
                        \/ captured inputs = []) calls ->
  Forall (fun m => List.length m = 1664%nat)
    (posted (render calls newProcessor)).
Proof.
  intros H. apply (render_quantum calls H).
  - split; simpl; lia.
  - exists 0%nat. reflexivity.
  - constructor.
Qed.

Lemma worklet_quantum_message_witness :
  Forall (fun m => List.length m = 1664%nat)
    (posted (render (repeat [[repeat (1 # 2) 128]] 30) newProcessor)).
Proof.
  apply worklet_quantum_message.
  apply Forall_forall. intros x Hx. apply repeat_spec in Hx. subst x.
  left. reflexivity.
Defined.

End WorkletFacts.

(** ** More on the codec *)

Section CodecMoreFacts.
Import Codec.

Lemma byteToZ_range (b : byte) : (0 <= byteToZ b <= 255)%Z.
Proof. unfold byteToZ. pose proof (Byte.to_N_bounded b). lia. Qed.

Lemma getInt16_range (lo hi : byte) : (-32768 <= getInt16 lo hi <= 32767)%Z.
Proof.
  unfold getInt16.
  pose proof (byteToZ_range lo). pose proof (byteToZ_range hi).
  destruct (Z.leb_spec 32768 (byteToZ lo + 256 * byteToZ hi)); lia.
Qed.

(** Induction on a chunk two bytes at a time. *)
Lemma chunk_ind (P : list byte -> Prop) :
  P [] -> (forall b, P [b]) ->
  (forall lo hi rest, P rest -> P (lo :: hi :: rest)) ->
  forall chunk, P chunk.
Proof.
  intros H0 H1 H2.
  assert (H : forall chunk, P chunk /\ forall b, P (b :: chunk)).
  { induction chunk as [|b chunk [IH IH']]; split; auto. }
  intros chunk. apply H.
Qed.

(** Every sample handed to the audio graph by [_processPCM16Chunk] lies
    between -1 and 32767/32768: playback never leaves the nominal range. *)
Theorem decoded_samples_in_range (chunk : list byte) :
  Forall (fun s => -1 <= s /\ s <= 32767 # 32768) (_processPCM16Chunk chunk).
Proof.
  induction chunk as [| b | lo hi rest IH] using chunk_ind;
    simpl; constructor; [|exact IH].
  pose proof (getInt16_range lo hi) as [L U].
  rewrite Zle_Qle in L, U.
  change (inject_Z (-32768)) with (-32768) in L.
  change (inject_Z 32767) with 32767 in U.
  unfold Qdiv. change (/ 32768) with (1 # 32768). split; lra.
Qed.

(** A chunk yields one sample per pair of bytes; the last byte of a chunk
    of odd length is ignored. *)
Theorem decoded_length (chunk : list byte) :
  List.length (_processPCM16Chunk chunk) = (List.length chunk / 2)%nat /\
  (Nat.even (List.length chunk) = true ->
   forall b, _processPCM16Chunk (chunk ++ [b]) = _processPCM16Chunk chunk).
Proof.
  induction chunk as [| b | lo hi rest [IH1 IH2]] using chunk_ind.
  - split; reflexivity.
  - split; [reflexivity|discriminate].
  - split.
    + cbn [_processPCM16Chunk List.length]. rewrite IH1.
      change (S (S (List.length rest))) with (2 + List.length rest)%nat.
      replace (2 + List.length rest)%nat with (List.length rest + 1 * 2)%nat by lia.
      rewrite Nat.div_add by lia. lia.
    + intros E b. simpl in E. simpl. f_equal. apply IH2. exact E.
Qed.

Lemma decoded_length_witness :
  _processPCM16Chunk (["001"; "002"] ++ ["003"])%byte
  = _processPCM16Chunk ["001"; "002"]%byte.
Proof. apply (proj2 (decoded_length ["001"; "002"]%byte)). reflexivity. Defined.

(** The capture codec preserves order: a larger sample never gets a
    smaller int16. *)
Theorem convertSample_monotone (x y : Q) :
  x <= y -> (convertSample x <= convertSample y)%Z.
Proof.
  intros H.
  destruct (convertSample_spec x) as [_ Sx].
  destruct (convertSample_spec y) as [_ Sy].
  assert (C : clampSample x <= clampSample y).
  { destruct (clampSample_spec x) as [[? ?]|[[? ?]|[? ?]]];
      destruct (clampSample_spec y) as [[? ?]|[[? ?]|[? ?]]]; lra. }
  destruct Sx as [[Nx [Lx Ux]]|[Nx [Lx Ux]]];
    destruct Sy as [[Ny [Ly Uy]]|[Ny [Ly Uy]]]; try lra.
  - cut (convertSample x < convertSample y + 1)%Z; [lia|].
    apply inject_Z_lt. rewrite inject_Z_plus. change (inject_Z 1) with 1. lra.
  - assert (convertSample x < 1)%Z
      by (apply inject_Z_lt; change (inject_Z 1) with 1; lra).
    assert (-1 < convertSample y)%Z
      by (apply inject_Z_lt; change (inject_Z (-1)) with (-1); lra).
    lia.
  - cut (convertSample x < convertSample y + 1)%Z; [lia|].
    apply inject_Z_lt. rewrite inject_Z_plus. change (inject_Z 1) with 1. lra.
Qed.

Lemma convertSample_monotone_witness :
  (convertSample (1 # 3) <= convertSample (1 # 2))%Z.
Proof. apply convertSample_monotone. discriminate. Defined.

(** Decoding a PCM16 sample for playback and encoding it again for capture
    does not give the sample back when it is positive: it comes back one
    step lower.  Zero and negative samples come back unchanged. *)
Theorem reencode_drifts_down (lo hi : byte) :
  convertSample (inject_Z (getInt16 lo hi) / 32768)
  = if (0 <? getInt16 lo hi)%Z then (getInt16 lo hi - 1)%Z else getInt16 lo hi.
Proof.
  pose proof (getInt16_range lo hi) as [L U].
  set (v := getInt16 lo hi) in *.
  set (x := inject_Z v / 32768).
  assert (Lq : -32768 <= inject_Z v)
    by (change (-32768) with (inject_Z (-32768)); now rewrite <- Zle_Qle).
  assert (Uq : inject_Z v <= 32767)
    by (change 32767 with (inject_Z 32767); now rewrite <- Zle_Qle).
  assert (X : x == inject_Z v * (1 # 32768)) by reflexivity.
  destruct (convertSample_spec x) as [_ S].
  destruct (clampSample_spec x) as [[? C]|[[_ C]|[? C]]]; try lra.
  destruct (Z.ltb_spec 0 v) as [Hv|Hv].
  - assert (Vq : 1 <= inject_Z v)
      by (change 1 with (inject_Z 1); rewrite <- Zle_Qle; lia).
    destruct S as [[N _]|[_ [Lo Hi]]]; [lra|].
    assert (convertSample x < v)%Z by (apply inject_Z_lt; lra).
    assert (v - 2 < convertSample x)%Z.
    { apply inject_Z_lt. replace (v - 2)%Z with (v + -2)%Z by lia.
      rewrite inject_Z_plus. change (inject_Z (-2)) with (-2). lra. }
    lia.
  - assert (Vq : inject_Z v <= 0)
      by (change 0 with (inject_Z 0); now rewrite <- Zle_Qle).
    destruct S as [[N [Lo Hi]]|[N [Lo Hi]]].
    + assert (convertSample x < v + 1)%Z.
      { apply inject_Z_lt. rewrite inject_Z_plus.
        change (inject_Z 1) with 1. lra. }
      assert (v <= convertSample x)%Z by (apply inject_Z_le; lra).
      lia.
    + assert (convertSample x < v + 1)%Z.
      { apply inject_Z_lt. rewrite inject_Z_plus.
        change (inject_Z 1) with 1. lra. }
      assert (v - 1 < convertSample x)%Z.
      { apply inject_Z_lt. replace (v - 1)%Z with (v + -1)%Z by lia.
        rewrite inject_Z_plus. change (inject_Z (-1)) with (-1). lra. }
      lia.
Qed.

End CodecMoreFacts.

(** ** Transport encoding *)

Section TransportFacts.
Import Codec Base64 Transport.

Lemma byteOfZ_to_N (b : byte) : byteOfZ (Z.of_N (Byte.to_N b)) = b.
Proof.
  unfold byteOfZ. pose proof (Byte.to_N_bounded b).
  rewrite Z.mod_small by lia. rewrite N2Z.id, Byte.of_to_N. reflexivity.
Qed.

(** [charCodeAt] undoes [String.fromCharCode] on bytes. *)
Lemma charCodes_binaryOf (buffer : list byte) :
  charCodes (binaryOf buffer) = buffer.
Proof.
  unfold charCodes, binaryOf. rewrite map_map.
  induction buffer as [|b buffer IH]; simpl; [reflexivity|].
  now rewrite byteOfZ_to_N, IH.
Qed.

(** [arrayBufferToBase64] hands [btoa] code units below 256 only, and when
    the platform's [atob] undoes its [btoa] on that string,
    [base64ToArrayBuffer] gives back the very buffer; a data event of the
    capture side, carried back unchanged and decoded by the playback side,
    is then the int16 samples divided by 32768. *)
Theorem transport_round_trip
  (btoa atob : JSString -> Completion JSString)
  (buffer : list byte) (encoded : JSString) :
  btoa (binaryOf buffer) = Returns encoded ->
  atob encoded = Returns (binaryOf buffer) ->
  Forall (fun c => (c < 256)%N) (binaryOf buffer) /\
  arrayBufferToBase64 btoa buffer = Returns encoded /\
  base64ToArrayBuffer atob encoded = Returns buffer /\
  forall x : list Q,
    buffer = int16Bytes (_convertToInt16 x) ->
    loopBack btoa atob (_convertToInt16 x) = Returns (roundTrip x).
Proof.
  intros E D. split; [|split; [exact E|split]].
  - unfold binaryOf. apply Forall_forall. intros c Hc.
    apply in_map_iff in Hc. destruct Hc as [b [<- _]].
    pose proof (Byte.to_N_bounded b). lia.
  - unfold base64ToArrayBuffer. rewrite D. simpl.
    now rewrite charCodes_binaryOf.
  - intros x ->. unfold loopBack, dataEvent, arrayBufferToBase64.
    rewrite E. simpl. unfold base64ToArrayBuffer. rewrite D. simpl.
    now rewrite charCodes_binaryOf.
Qed.

Lemma transport_round_trip_witness :
  base64ToArrayBuffer windowAtob [65; 81; 73; 68; 47; 119; 61; 61]%N
  = Returns ["001"; "002"; "003"; "255"]%byte.
Proof.
  apply (transport_round_trip windowBtoa windowAtob
           ["001"; "002"; "003"; "255"]%byte
           [65; 81; 73; 68; 47; 119; 61; 61]%N); reflexivity.
Defined.

End TransportFacts.

(** ** Transport encoding on a standard platform *)

Section StandardPlatformFacts.
Import Codec Base64 Transport.

Lemma alphabet_sextet (v : N) :
  (v < 64)%N ->
  sextet (alphabet v) = Some v /\ isAsciiWhitespace (alphabet v) = false /\
  alphabet v <> 61%N.
Proof.
  intros H.
  assert (A : forallb probe (map N.of_nat (seq 0 64)) = true) by (vm_compute; reflexivity).
  rewrite forallb_forall in A.
  assert (I : In v (map N.of_nat (seq 0 64))).
  { apply in_map_iff. exists (N.to_nat v). split; [apply N2Nat.id|].
    apply in_seq. lia. }
  specialize (A v I). unfold probe in A.
  apply andb_prop in A. destruct A as [A C]. apply andb_prop in A. destruct A as [A B].
  destruct (sextet (alphabet v)) as [w|]; [|discriminate].
  apply N.eqb_eq in A. subst w.
  apply negb_true_iff in B. apply negb_true_iff in C. apply N.eqb_neq in C.
  auto.
Qed.

(** Induction over a byte sequence three bytes at a time. *)
Lemma triples_ind (P : list N -> Prop) :
  P [] -> (forall a, P [a]) -> (forall a b, P [a; b]) ->
  (forall a b c rest, P rest -> P (a :: b :: c :: rest)) ->
  forall data, P data.
Proof.
  intros P0 P1 P2 P3.
  assert (G : forall data, P data /\ (forall a, P (a :: data))
                           /\ (forall a b, P (a :: b :: data))).
  { induction data as [|x data [IH0 [IH1 IH2]]].
    - auto.
    - split; [apply IH1|]. split; [intros a; apply IH2|].
      intros a b. apply P3, IH0. }
  intros data. apply G.
Qed.

Lemma strip_other (c : N) (r data : list N) :
  c <> 61%N ->
  match c :: r with
  | 61%N :: 61%N :: r' => rev r'
  | 61%N :: r' => rev r'
  | _ => data
  end = data.
Proof.
  intros H. destruct c as [|p]; [reflexivity|].
  do 6 (try destruct p as [p|p|]); try reflexivity.
  all: try (exfalso; apply H; reflexivity).
  all: destruct p; reflexivity.
Qed.

Lemma strip_one (c : N) (r data : list N) :
  c <> 61%N ->
  match 61%N :: c :: r with
  | 61%N :: 61%N :: r' => rev r'
  | 61%N :: r' => rev r'
  | _ => data
  end = rev (c :: r).
Proof.
  intros H. destruct c as [|p]; [reflexivity|].
  do 6 (try destruct p as [p|p|]); try reflexivity.
  all: try (exfalso; apply H; reflexivity).
  all: destruct p; reflexivity.
Qed.


Lemma group1 (a : N) :
  (a < 256)%N ->
  let n := (a * 16)%N in
  (n / 64 < 64)%N /\ (n mod 64 < 64)%N /\
  ((n / 64 * 64 + n mod 64) / 16 = a)%N.
Proof. intros H. cbv zeta. zify. Z.to_euclidean_division_equations. lia. Qed.

Lemma group2 (a b : N) :
  (a < 256)%N -> (b < 256)%N ->
  let n := ((a * 256 + b) * 4)%N in
  (n / 4096 < 64)%N /\ ((n / 64) mod 64 < 64)%N /\ (n mod 64 < 64)%N /\
  let m := (((n / 4096 * 64 + (n / 64) mod 64) * 64 + n mod 64) / 4)%N in
  (m / 256 = a)%N /\ (m mod 256 = b)%N.
Proof. intros Ha Hb. cbv zeta. zify. Z.to_euclidean_division_equations. lia. Qed.

Lemma group3 (a b c : N) :
  (a < 256)%N -> (b < 256)%N -> (c < 256)%N ->
  let n := ((a * 256 + b) * 256 + c)%N in
  (n / 262144 < 64)%N /\ ((n / 4096) mod 64 < 64)%N /\
  ((n / 64) mod 64 < 64)%N /\ (n mod 64 < 64)%N /\
  let m := (((n / 262144 * 64 + (n / 4096) mod 64) * 64
             + (n / 64) mod 64) * 64 + n mod 64)%N in
  (m / 65536 = a)%N /\ ((m / 256) mod 256 = b)%N /\ (m mod 256 = c)%N.
Proof. intros Ha Hb Hc. cbv zeta. zify. Z.to_euclidean_division_equations. lia. Qed.


Lemma mod4_shift (n : nat) : (S (S (S (S n))) mod 4 = n mod 4)%nat.
Proof.
  change (S (S (S (S n)))) with (4 + n)%nat. rewrite Nat.add_comm.
  exact (Nat.Div0.mod_add n 1 4).
Qed.

Lemma encodeGroups_3 (a b c : N) (rest : list N) :
  encodeGroups (a :: b :: c :: rest)
  = alphabet (((a * 256 + b) * 256 + c) / 262144)
      :: alphabet ((((a * 256 + b) * 256 + c) / 4096) mod 64)
      :: alphabet ((((a * 256 + b) * 256 + c) / 64) mod 64)
      :: alphabet (((a * 256 + b) * 256 + c) mod 64)
      :: encodeGroups rest.
Proof. reflexivity. Qed.

Lemma decodeGroups_4 (a b c d : N) (rest : list N) :
  decodeGroups (a :: b :: c :: d :: rest)
  = ((((a * 64 + b) * 64 + c) * 64 + d) / 65536)%N
      :: (((((a * 64 + b) * 64 + c) * 64 + d) / 256) mod 256)%N
      :: ((((a * 64 + b) * 64 + c) * 64 + d) mod 256)%N
      :: decodeGroups rest.
Proof. reflexivity. Qed.

Lemma sextets_cons (c v : N) (rest vs : list N) :
  sextet c = Some v -> sextets rest = Some vs ->
  sextets (c :: rest) = Some (v :: vs).
Proof. intros H1 H2. cbn [sextets]. now rewrite H1, H2. Qed.

Lemma encodeGroups_wellEncoded (data : list N) :
  Forall (fun c => (c < 256)%N) data -> wellEncoded data.
Proof.
  induction data as [|a|a b|a b c rest IH] using triples_ind; intros F.
  - exists [], [], []. repeat split; auto; discriminate.
  - inversion F as [|? ? Ha _]; subst.
    destruct (group1 a Ha) as [H1 [H2 H3]].
    destruct (alphabet_sextet _ H1) as [S1 [W1 E1]].
    destruct (alphabet_sextet _ H2) as [S2 [W2 E2]].
    exists [alphabet (a * 16 / 64); alphabet ((a * 16) mod 64)], [61%N; 61%N],
           [(a * 16 / 64)%N; ((a * 16) mod 64)%N].
    split; [reflexivity|]. split; [auto|]. split; [repeat constructor; auto|].
    split; [reflexivity|]. split; [discriminate|].
    split; [apply sextets_cons; [exact S1|apply sextets_cons; [exact S2|reflexivity]]|].
    cbn [decodeGroups]. now rewrite H3.
  - inversion F as [|? ? Ha F']; subst. inversion F' as [|? ? Hb _]; subst.
    destruct (group2 a b Ha Hb) as [H1 [H2 [H3 [H4 H5]]]].
    destruct (alphabet_sextet _ H1) as [S1 [W1 E1]].
    destruct (alphabet_sextet _ H2) as [S2 [W2 E2]].
    destruct (alphabet_sextet _ H3) as [S3 [W3 E3]].
    exists [alphabet ((a * 256 + b) * 4 / 4096);
            alphabet (((a * 256 + b) * 4 / 64) mod 64);
            alphabet (((a * 256 + b) * 4) mod 64)], [61%N],
           [((a * 256 + b) * 4 / 4096)%N; (((a * 256 + b) * 4 / 64) mod 64)%N;
            (((a * 256 + b) * 4) mod 64)%N].
    split; [reflexivity|]. split; [auto|]. split; [repeat constructor; auto|].
    split; [reflexivity|]. split; [discriminate|].
    split; [apply sextets_cons; [exact S1|apply sextets_cons;
              [exact S2|apply sextets_cons; [exact S3|reflexivity]]]|].
    cbn [decodeGroups]. now rewrite H4, H5.
  - inversion F as [|? ? Ha F1]; subst. inversion F1 as [|? ? Hb F2]; subst.
    inversion F2 as [|? ? Hc F3]; subst.
    destruct (IH F3) as [body [pad [v [E [P [B [L4 [L1 [SX D]]]]]]]]].
    destruct (group3 a b c Ha Hb Hc) as [H1 [H2 [H3 [H4 [H5 [H6 H7]]]]]].
    destruct (alphabet_sextet _ H1) as [S1 [W1 E1]].
    destruct (alphabet_sextet _ H2) as [S2 [W2 E2]].
    destruct (alphabet_sextet _ H3) as [S3 [W3 E3]].
    destruct (alphabet_sextet _ H4) as [S4 [W4 E4]].
    exists (alphabet (((a * 256 + b) * 256 + c) / 262144)
              :: alphabet ((((a * 256 + b) * 256 + c) / 4096) mod 64)
              :: alphabet ((((a * 256 + b) * 256 + c) / 64) mod 64)
              :: alphabet (((a * 256 + b) * 256 + c) mod 64) :: body), pad,
           ((((a * 256 + b) * 256 + c) / 262144)%N
              :: ((((a * 256 + b) * 256 + c) / 4096) mod 64)%N
              :: ((((a * 256 + b) * 256 + c) / 64) mod 64)%N
              :: (((a * 256 + b) * 256 + c) mod 64)%N :: v).
    split; [rewrite encodeGroups_3, E; reflexivity|]. split; [exact P|].
    split; [repeat (constructor; [auto|]); exact B|].
    split; [cbn [app List.length]; now rewrite mod4_shift|].
    split; [cbn [List.length]; now rewrite mod4_shift|].
    split.
    { repeat (apply sextets_cons; [assumption|]). exact SX. }
    rewrite decodeGroups_4, H5, H6, H7, D. reflexivity.
Qed.

Lemma filter_keeps {A} (f : A -> bool) (l : list A) :
  Forall (fun x => f x = true) l -> filter f l = l.
Proof.
  induction 1 as [|x l H _ IH]; simpl; [reflexivity|]. now rewrite H, IH.
Qed.

Lemma stripPadding_encoded (body pad : list N) :
  (pad = [] \/ pad = [61%N] \/ pad = [61%N; 61%N]) ->
  Forall (fun c => c <> 61%N /\ isAsciiWhitespace c = false) body ->
  (List.length (body ++ pad) mod 4 = 0)%nat ->
  (List.length body mod 4 <> 1)%nat ->
  stripPadding (body ++ pad) = body.
Proof.
  intros P B L4 L1. unfold stripPadding. rewrite L4. cbn [Nat.eqb].
  rewrite rev_app_distr.
  assert (R : rev body = [] \/ exists c r, rev body = c :: r /\ c <> 61%N).
  { destruct (rev body) as [|c r] eqn:E; [now left|right].
    exists c, r. split; [reflexivity|].
    rewrite Forall_forall in B. apply (B c).
    apply in_rev. rewrite E. now left. }
  destruct P as [ -> | [ -> | -> ] ]; cbn [rev app].
  - rewrite app_nil_r.
    destruct R as [R|[c [r [R Hne]]]]; rewrite R.
    + reflexivity.
    + apply strip_other. exact Hne.
  - destruct R as [R|[c [r [R Hne]]]]; rewrite R.
    + apply (f_equal (@rev N)) in R. rewrite rev_involutive in R. now rewrite R.
    + etransitivity; [exact (strip_one c r (body ++ [61%N]) Hne)|].
      rewrite <- R. apply rev_involutive.
  - apply rev_involutive.
Qed.

Lemma standard_round_trip (buffer : list byte) :
  arrayBufferToBase64 windowBtoa buffer
  = Returns (encodeGroups (binaryOf buffer)) /\
  base64ToArrayBuffer windowAtob (encodeGroups (binaryOf buffer))
  = Returns buffer.
Proof.
  assert (F : Forall (fun c => (c < 256)%N) (binaryOf buffer)).
  { unfold binaryOf. apply Forall_forall. intros c Hc.
    apply in_map_iff in Hc. destruct Hc as [b [<- _]].
    pose proof (Byte.to_N_bounded b). lia. }
  split.
  { unfold arrayBufferToBase64, windowBtoa.
    replace (forallb (fun c => (c <? 256)%N) (binaryOf buffer)) with true;
      [reflexivity|].
    symmetry. apply forallb_forall. intros c Hc.
    rewrite Forall_forall in F. apply N.ltb_lt, F, Hc. }
  destruct (encodeGroups_wellEncoded _ F)
    as [body [pad [v [E [P [B [L4 [L1 [SX D]]]]]]]]].
  unfold base64ToArrayBuffer, windowAtob, forgivingBase64Decode.
  rewrite E. rewrite filter_keeps.
  2:{ apply Forall_app. split.
      - eapply Forall_impl; [|exact B]. simpl. intros c [_ W]. now rewrite W.
      - destruct P as [ -> | [ -> | -> ] ]; repeat constructor. }
  rewrite (stripPadding_encoded body pad P B L4 L1).
  destruct (List.length body mod 4 =? 1)%nat eqn:M;
    [apply Nat.eqb_eq in M; contradiction|].
  rewrite SX, D. cbn [bind tryCatch]. now rewrite charCodes_binaryOf.
Qed.

(** On a platform whose [btoa] and [atob] follow the HTML Standard, the
    capture side's encoding never throws and the playback side's decoding
    gives back the very bytes, for every buffer; so every data event of
    the capture side, carried back unchanged, is played as the int16
    samples divided by 32768. *)
Theorem standard_platform_round_trip (buffer : list byte) (x : list Q) :
  (exists encoded,
      arrayBufferToBase64 windowBtoa buffer = Returns encoded /\
      base64ToArrayBuffer windowAtob encoded = Returns buffer) /\
  loopBack windowBtoa windowAtob (_convertToInt16 x) = Returns (roundTrip x).
Proof.
  split.
  - exists (encodeGroups (binaryOf buffer)). apply standard_round_trip.
  - unfold loopBack, dataEvent.
    destruct (standard_round_trip (int16Bytes (_convertToInt16 x))) as [E D].
    rewrite E. cbn [bind]. rewrite D. reflexivity.
Qed.

End StandardPlatformFacts.

(** ** More on the playback scheduler *)

Section PlaybackFacts.
Import Codec Streamer Playback.

(** *** The look-ahead window *)

Lemma scheduleLoop_withinWindow (now : Q) (queue : list Frame) :
  forall s, withinWindow s -> withinWindow (stateOf (scheduleLoop now queue s)).
Proof.
  induction queue as [|audioData rest IH]; intros s P; simpl.
  - exact P.
  - destruct (Qltb (scheduledTime (this s)) (now + SCHEDULE_AHEAD_TIME)) eqn:W;
      [|exact P].
    apply Qltb_true in W.
    destruct (nextOutcome (withQueue rest s)) as [o s1] eqn:E.
    assert (P1 : withinWindow s1 /\ scheduledTime (this s1) = scheduledTime (this s)).
    { unfold nextOutcome in E. simpl in E.
      destruct (behaviour (host s)); inversion E; subst; split;
        (exact P || reflexivity). }
    destruct P1 as [P1 T1].
    destruct o.
    + apply IH. unfold withinWindow in *. simpl.
      apply Forall_app. split; [exact P1|].
      constructor; [|constructor]. simpl. rewrite T1.
      unfold SCHEDULE_AHEAD_TIME in *.
      apply Q.max_lub_lt; lra.
    + apply IH. exact P1.
    + exact P1.
Qed.

Lemma step_withinWindow (s : AudioStreamer) (e : Event) :
  withinWindow s -> withinWindow (step s e).
Proof.
  assert (N : forall now s, withinWindow s ->
                            withinWindow (stateOf (scheduleNextBuffer now s))).
  { intros now s0 P. unfold scheduleNextBuffer.
    pose proof (scheduleLoop_withinWindow now (audioQueue (this s0)) s0 P) as H.
    destruct (scheduleLoop now (audioQueue (this s0)) s0) as [s1|s1];
      simpl in *; [|exact H].
    destruct (audioQueue (this s1)); [destruct (isStreamComplete (this s1))|];
      exact H. }
  intros P. destruct e as [now chunk|now|now|[now|now|]]; simpl.
  - unfold addPCM16.
    set (q := audioQueue _ ++ splitFrames _). clearbody q. simpl.
    destruct (isPlaying (this s)); [exact P|].
    match goal with |- context [scheduleNextBuffer now ?x] =>
      pose proof (N now x P) as H;
      destruct (scheduleNextBuffer now x) as [s1|s1] end; simpl in *.
    + exact H.
    + rewrite attemptRecovery_cases.
      destruct (S (retryCount (this (logError ErrAddingPCM16 s1))) <=? maxRetries)%nat;
        exact H.
  - exact P.
  - exact P.
  - destruct (pendingSchedules (host s)); [exact P|]. apply N. exact P.
  - destruct (checkInterval (this s)); [|exact P].
    destruct (audioQueue (this s)); [exact P|]. apply N. exact P.
  - destruct (pendingRebuilds (host s)); exact P.
Qed.

(** Whatever the platform does and whatever calls and callbacks occur, no
    source is started for a time 200 ms or more after the clock read when
    it is started. *)
Theorem starts_within_lookahead (platform : list Outcome) (events : list Event) :
  Forall (fun src => when src < clock src + SCHEDULE_AHEAD_TIME)
         (started (host (run events (newAudioStreamer platform)))).
Proof.
  change (withinWindow (run events (newAudioStreamer platform))).
  generalize (newAudioStreamer platform),
    (Forall_nil _ : withinWindow (newAudioStreamer platform)).
  unfold run. induction events as [|e events IH]; intros s P; simpl.
  - exact P.
  - apply IH, step_withinWindow, P.
Qed.

(** *** Idle means empty *)

Lemma scheduleLoop_isPlaying (now : Q) (queue : list Frame) :
  forall s, isPlaying (this (stateOf (scheduleLoop now queue s)))
            = isPlaying (this s).
Proof.
  induction queue as [|audioData rest IH]; intros s; simpl.
  - reflexivity.
  - destruct (Qltb (scheduledTime (this s)) (now + SCHEDULE_AHEAD_TIME));
      [|reflexivity].
    destruct (nextOutcome (withQueue rest s)) as [o s1] eqn:E.
    assert (E1 : isPlaying (this s1) = isPlaying (this s)).
    { unfold nextOutcome in E. simpl in E.
      destruct (behaviour (host s)); inversion E; subst; reflexivity. }
    destruct o; simpl; rewrite ?IH; exact E1.
Qed.

(** After [scheduleNextBuffer], started while playing or with an empty
    queue, the scheduler is idle only with an empty queue. *)
Lemma scheduleNextBuffer_idle (now : Q) (s : AudioStreamer) :
  isPlaying (this s) = true \/ audioQueue (this s) = [] ->
  isPlaying (this (stateOf (scheduleNextBuffer now s))) = false ->
  audioQueue (this (stateOf (scheduleNextBuffer now s))) = [].
Proof.
  intros H. unfold scheduleNextBuffer.
  pose proof (scheduleLoop_isPlaying now (audioQueue (this s)) s) as P.
  destruct H as [H|H].
  - destruct (scheduleLoop now (audioQueue (this s)) s) as [s1|s1];
      simpl in *.
    + destruct (audioQueue (this s1)) eqn:E;
        [destruct (isStreamComplete (this s1))|]; simpl; intros I;
        try exact E; congruence.
    + intros I. congruence.
  - rewrite H. simpl. rewrite H.
    destruct (isStreamComplete (this s)); simpl; intros _; exact H.
Qed.

Lemma scheduleNextBuffer_threw_isPlaying (now : Q) (s s1 : AudioStreamer) :
  scheduleNextBuffer now s = Threw s1 ->
  isPlaying (this s1) = isPlaying (this s).
Proof.
  unfold scheduleNextBuffer. intros H.
  pose proof (scheduleLoop_isPlaying now (audioQueue (this s)) s) as P.
  destruct (scheduleLoop now (audioQueue (this s)) s) as [s2|s2];
    simpl in *.
  - destruct (audioQueue (this s2)); [destruct (isStreamComplete (this s2))|];
      discriminate.
  - inversion H. subst. exact P.
Qed.

Lemma step_idle_empty (s : AudioStreamer) (e : Event) :
  (isPlaying (this s) = false -> audioQueue (this s) = []) ->
  isPlaying (this (step s e)) = false -> audioQueue (this (step s e)) = [].
Proof.
  intros P. destruct e as [now chunk|now|now|[now|now|]]; simpl.
  - unfold addPCM16.
    set (new := splitFrames _). clearbody new. simpl.
    destruct (isPlaying (this s)) eqn:I; [simpl; congruence|].
    match goal with |- context [scheduleNextBuffer now ?x] =>
      pose proof (scheduleNextBuffer_idle now x (or_introl eq_refl)) as H;
      pose proof (scheduleNextBuffer_threw_isPlaying now x) as T;
      destruct (scheduleNextBuffer now x) as [s1|s1] end; simpl in *.
    + exact H.
    + rewrite attemptRecovery_cases.
      destruct (S (retryCount (this (logError ErrAddingPCM16 s1))) <=? maxRetries)%nat;
        simpl; [reflexivity|].
      intros I1. rewrite (T s1 eq_refl) in I1. discriminate.
  - reflexivity.
  - exact P.
  - destruct (pendingSchedules (host s)) eqn:N; [exact P|].
    apply scheduleNextBuffer_idle. simpl.
    destruct (isPlaying (this s)); auto.
  - destruct (checkInterval (this s)); [|exact P].
    destruct (audioQueue (this s)) eqn:Hq; [intros _; exact Hq|].
    apply scheduleNextBuffer_idle.
    destruct (isPlaying (this s)); auto.
    specialize (P eq_refl). congruence.
  - destruct (pendingRebuilds (host s)); exact P.
Qed.

(** Whatever the platform does and whatever calls and callbacks occur,
    frames wait in the queue only while the scheduler is marked as playing:
    when [isPlaying] is false the queue is empty. *)
Theorem idle_means_empty (platform : list Outcome) (events : list Event) :
  let s := run events (newAudioStreamer platform) in
  isPlaying (this s) = false -> audioQueue (this s) = [].
Proof.
  cbv zeta.
  assert (P0 : isPlaying (this (newAudioStreamer platform)) = false ->
               audioQueue (this (newAudioStreamer platform)) = [])
    by reflexivity.
  revert P0. generalize (newAudioStreamer platform).
  unfold run. induction events as [|e events IH]; intros s P; simpl.
  - exact P.
  - apply IH, step_idle_empty, P.
Qed.

Lemma idle_means_empty_witness :
  audioQueue (this (run [AddPCM16 0 longChunk; Stop 1]
                        (newAudioStreamer [])))
  = [].
Proof.
  apply (idle_means_empty [] [AddPCM16 0 longChunk; Stop 1]). reflexivity.
Defined.

(** *** A timer is armed while frames wait *)

Lemma scheduleNextBuffer_armed (now : Q) (s : AudioStreamer) :
  behaviour (host s) = [] ->
  exists s',
    scheduleNextBuffer now s = Returned s' /\
    behaviour (host s') = [] /\
    (isPlaying (this s') = true -> armed s').
Proof.
  intros B. unfold scheduleNextBuffer.
  destruct (scheduleLoop_frames now (audioQueue (this s)) s B eq_refl)
    as [s1 [R [_ B1]]].
  rewrite R.
  destruct (audioQueue (this s1));
    [destruct (isStreamComplete (this s1))|];
    eexists; (split; [reflexivity|]); (split; [exact B1|]);
    unfold armed; simpl; intros I; try discriminate; auto.
  right. lia.
Qed.

Lemma step_keepsArmed (s : AudioStreamer) (e : Event) :
  keepsArmed s -> keepsArmed (step s e).
Proof.
  intros [B [A I]].
  split; [|split; [|apply step_idle_empty; exact I]].
  - destruct e as [now chunk|now|now|[now|now|]]; simpl.
    + destruct (addPCM16_frames now chunk s B) as [_ H]. exact H.
    + exact B.
    + exact B.
    + destruct (pendingSchedules (host s)); [exact B|].
      destruct (scheduleNextBuffer_armed now (withPendingSchedules n s) B)
        as [s' [R [B' _]]].
      now rewrite R.
    + destruct (checkInterval (this s)); [|exact B].
      destruct (audioQueue (this s)); [exact B|].
      destruct (scheduleNextBuffer_armed now s B) as [s' [R [B' _]]].
      now rewrite R.
    + destruct (pendingRebuilds (host s)); exact B.
  - destruct e as [now chunk|now|now|[now|now|]]; simpl.
    + unfold addPCM16.
      set (new := splitFrames _). clearbody new. simpl.
      destruct (isPlaying (this s)) eqn:P; [simpl; intros _; exact (A eq_refl)|].
      match goal with |- context [scheduleNextBuffer now ?x] =>
        destruct (scheduleNextBuffer_armed now x B) as [s' [R [_ A']]] end.
      rewrite R. exact A'.
    + discriminate.
    + exact A.
    + destruct (pendingSchedules (host s)) eqn:N; [exact A|].
      destruct (scheduleNextBuffer_armed now (withPendingSchedules n s) B)
        as [s' [R [_ A']]].
      rewrite R. exact A'.
    + destruct (checkInterval (this s)); [|exact A].
      destruct (audioQueue (this s)); [exact A|].
      destruct (scheduleNextBuffer_armed now s B) as [s' [R [_ A']]].
      rewrite R. exact A'.
    + destruct (pendingRebuilds (host s)); exact A.
Qed.

(** On a platform that never throws, whatever calls and callbacks occur,
    frames never wait unattended: while the queue is not empty the interval
    timer is armed or a timeout of [scheduleNextBuffer] is pending, and
    either one runs the scheduling loop when it fires. *)
Theorem queued_frames_have_a_timer (events : list Event) :
  let s := run events (newAudioStreamer []) in
  audioQueue (this s) <> [] -> armed s.
Proof.
  cbv zeta.
  assert (K : keepsArmed (run events (newAudioStreamer []))).
  { assert (K0 : keepsArmed (newAudioStreamer []))
      by (split; [reflexivity|split; [discriminate|reflexivity]]).
    revert K0. generalize (newAudioStreamer []).
    unfold run. induction events as [|e events IH]; intros s K; simpl.
    - exact K.
    - apply IH, step_keepsArmed, K. }
  destruct K as [_ [A I]]. intros N.
  destruct (isPlaying (this (run events (newAudioStreamer [])))) eqn:P.
  - exact (A eq_refl).
  - elim N. exact (I eq_refl).
Qed.

Lemma queued_frames_have_a_timer_witness :
  armed (run [AddPCM16 0 longChunk] (newAudioStreamer [])).
Proof.
  apply (queued_frames_have_a_timer [AddPCM16 0 longChunk]).
  vm_compute. discriminate.
Defined.

(** *** A scheduler marked as playing with no timer armed stays silent *)

Lemma step_stalled (s : AudioStreamer) (e : Event) :
  stalled s -> notStop e = true ->
  stalled (step s e) /\
  started (host (step s e)) = started (host s) /\
  audioQueue (this (step s e)) = audioQueue (this s) ++ pushed [e].
Proof.
  intros [P [C N]] F.
  destruct e as [now chunk|now|now|[now|now|]]; try discriminate; simpl.
  - rewrite addPCM16_playing by exact P. simpl. rewrite app_nil_r.
    repeat split; assumption.
  - rewrite app_nil_r. repeat split; assumption.
  - rewrite N. simpl. rewrite app_nil_r. repeat split; assumption.
  - rewrite C. simpl. rewrite app_nil_r. repeat split; assumption.
  - rewrite app_nil_r.
    destruct (pendingRebuilds (host s)); simpl; repeat split; assumption.
Qed.

(** Once the scheduler is marked as playing while neither the interval
    nor a timeout is armed, [addPCM16] calls, [resume()] and timer callbacks
    start nothing: every new frame is queued and stays queued, until
    [stop()] is called.  (The state is reached when a failure is caught
    after the retry budget is spent.) *)
Theorem stalled_scheduler_stays_silent (s : AudioStreamer) (events : list Event) :
  stalled s -> forallb notStop events = true ->
  stalled (run events s) /\
  started (host (run events s)) = started (host s) /\
  audioQueue (this (run events s)) = audioQueue (this s) ++ pushed events.
Proof.
  revert s. unfold run.
  induction events as [|e events IH]; intros s St F; simpl.
  - rewrite app_nil_r. auto.
  - simpl in F. apply andb_true_iff in F. destruct F as [Fe F].
    destruct (step_stalled s e St Fe) as [St' [S' Q']].
    destruct (IH _ St' F) as [St'' [S'' Q'']].
    split; [exact St''|]. split; [now rewrite S''|].
    rewrite Q'', Q'. unfold pushed. simpl.
    now rewrite !app_nil_r, <- app_assoc.
Qed.

Lemma stalled_scheduler_stays_silent_witness :
  started (host (run [AddPCM16 1 longChunk; Fires (IntervalTicks 2);
                      Fires (TimeoutFires 3)]
                     (run (threeFailures ++ [AddPCM16 0 oneSample])
                          (newAudioStreamer failingPlatform))))
  = started (host (run (threeFailures ++ [AddPCM16 0 oneSample])
                       (newAudioStreamer failingPlatform))).
Proof.
  apply (stalled_scheduler_stays_silent
           (run (threeFailures ++ [AddPCM16 0 oneSample])
                (newAudioStreamer failingPlatform))
           [AddPCM16 1 longChunk; Fires (IntervalTicks 2);
            Fires (TimeoutFires 3)]).
  - vm_compute. repeat split; reflexivity.
  - reflexivity.
Defined.

(** *** Frames keep their order *)

Lemma Subsequence_refl {A} (l : list A) : Subsequence l l.
Proof. induction l; constructor; assumption. Qed.

Lemma Subsequence_nil {A} (l : list A) : Subsequence [] l.
Proof. induction l; constructor; assumption. Qed.

Lemma Subsequence_trans {A} (l1 l2 l3 : list A) :
  Subsequence l1 l2 -> Subsequence l2 l3 -> Subsequence l1 l3.
Proof.
  intros H12 H23. revert l1 H12.
  induction H23 as [|x l2 l3 H IH|x l2 l3 H IH]; intros l1 H12.
  - exact H12.
  - inversion H12; subst.
    + apply sub_keep. auto.
    + apply sub_skip. auto.
  - apply sub_skip. auto.
Qed.

Lemma Subsequence_app {A} (l1 l2 k1 k2 : list A) :
  Subsequence l1 l2 -> Subsequence k1 k2 -> Subsequence (l1 ++ k1) (l2 ++ k2).
Proof.
  intros H K. induction H; simpl; try (constructor; assumption). exact K.
Qed.

Lemma scheduleLoop_sub (now : Q) (queue : list Frame) :
  forall s,
    audioQueue (this s) = queue ->
    Subsequence (frames (stateOf (scheduleLoop now queue s))) (frames s).
Proof.
  induction queue as [|audioData rest IH]; intros s E; simpl.
  - apply Subsequence_refl.
  - destruct (Qltb (scheduledTime (this s)) (now + SCHEDULE_AHEAD_TIME));
      [|apply Subsequence_refl].
    assert (D : Subsequence (map buffer (started (host s)) ++ rest) (frames s)).
    { unfold frames. rewrite E. apply Subsequence_app.
      - apply Subsequence_refl.
      - apply sub_skip, Subsequence_refl. }
    destruct (nextOutcome (withQueue rest s)) as [o s1] eqn:N.
    assert (N1 : started (host s1) = started (host s)
                 /\ audioQueue (this s1) = rest).
    { unfold nextOutcome in N. simpl in N.
      destruct (behaviour (host s)); inversion N; subst; split; reflexivity. }
    destruct N1 as [N1 N2].
    destruct o; simpl.
    + eapply Subsequence_trans; [apply IH; exact N2|].
      unfold frames. simpl. rewrite N1, N2, E, map_app, <- app_assoc.
      apply Subsequence_refl.
    + eapply Subsequence_trans; [apply IH; exact N2|].
      unfold frames. simpl. rewrite N1, N2. exact D.
    + unfold frames. rewrite N1, N2. exact D.
Qed.

Lemma scheduleNextBuffer_sub (now : Q) (s : AudioStreamer) :
  Subsequence (frames (stateOf (scheduleNextBuffer now s))) (frames s).
Proof.
  unfold scheduleNextBuffer.
  pose proof (scheduleLoop_sub now (audioQueue (this s)) s eq_refl) as H.
  destruct (scheduleLoop now (audioQueue (this s)) s) as [s1|s1]; simpl in *.
  - destruct (audioQueue (this s1)) eqn:E;
      [destruct (isStreamComplete (this s1))|]; simpl;
      (eapply Subsequence_trans; [|exact H]);
      unfold frames; simpl; rewrite ?E; apply Subsequence_refl.
  - exact H.
Qed.

Lemma step_sub (s : AudioStreamer) (e : Event) :
  Subsequence (frames (step s e)) (frames s ++ pushed [e]).
Proof.
  destruct e as [now chunk|now|now|[now|now|]]; simpl;
    unfold pushed; simpl; rewrite ?app_nil_r.
  - unfold addPCM16.
    set (new := splitFrames _). clearbody new. simpl.
    destruct (isPlaying (this s)).
    + unfold frames. simpl. rewrite app_assoc. apply Subsequence_refl.
    + match goal with |- context [scheduleNextBuffer now ?x] =>
        pose proof (scheduleNextBuffer_sub now x) as H;
        assert (F : frames x = frames s ++ new)
          by (unfold frames; simpl; now rewrite app_assoc);
        destruct (scheduleNextBuffer now x) as [s1|s1] end; simpl in *.
      * now rewrite <- F.
      * rewrite <- F. eapply Subsequence_trans; [|exact H].
        rewrite attemptRecovery_cases.
        destruct (S (retryCount (this (logError ErrAddingPCM16 s1))) <=? maxRetries)%nat;
          unfold frames; simpl.
        -- apply Subsequence_app; [apply Subsequence_refl|apply Subsequence_nil].
        -- apply Subsequence_refl.
  - unfold frames. simpl.
    apply Subsequence_app; [apply Subsequence_refl|apply Subsequence_nil].
  - apply Subsequence_refl.
  - destruct (pendingSchedules (host s)); [apply Subsequence_refl|].
    apply (scheduleNextBuffer_sub now (withPendingSchedules n s)).
  - destruct (checkInterval (this s)); [|apply Subsequence_refl].
    destruct (audioQueue (this s)) eqn:E; [apply Subsequence_refl|].
    apply scheduleNextBuffer_sub.
  - destruct (pendingRebuilds (host s)); apply Subsequence_refl.
Qed.

(** Whatever the platform does and whatever calls and callbacks occur, the
    buffers of the sources started, in the order they were started,
    followed by the frames still queued, are the frames pushed by the
    [addPCM16] calls with some left out: frames may be lost (to a failure
    or to [stop()]) but no frame is started twice, out of order, or without
    having been pushed. *)
Theorem frames_keep_order (platform : list Outcome) (events : list Event) :
  Subsequence (frames (run events (newAudioStreamer platform)))
              (pushed events).
Proof.
  assert (C : forall e es, pushed (e :: es) = pushed [e] ++ pushed es)
    by (intros e es; unfold pushed; simpl; now rewrite app_nil_r).
  assert (G : forall es s,
             Subsequence (frames (run es s)) (frames s ++ pushed es)).
  { unfold run. induction es as [|e es IH]; intros s.
    - simpl. rewrite app_nil_r. apply Subsequence_refl.
    - cbn [fold_left]. eapply Subsequence_trans; [apply IH|].
      rewrite C, app_assoc.
      apply Subsequence_app; [apply step_sub|apply Subsequence_refl]. }
  apply (G events (newAudioStreamer platform)).
Qed.

(** *** Started sources do not overlap *)







(** *** Playback begins after the initial delay *)




End PlaybackFacts.

(** ** More on the capture bridge *)

Section CaptureFacts.
Import Recorder Capture.

Lemma NoDup_app_disjoint {A} (l l' : list A) (a : A) :
  NoDup (l ++ l') -> In a l -> ~ In a l'.
Proof.
  induction l as [|b l IH]; simpl; intros N H; [contradiction|].
  inversion N as [|? ? Hb N']; subst. destruct H as [->|H].
  - intros H'. apply Hb. apply in_or_app. now right.
  - apply IH; assumption.
Qed.

Lemma handleStop_tracksOk (s : AudioRecorder) :
  tracksOk s -> tracksOk (handleStop s).
Proof.
  intros [N [G L]]. unfold tracksOk, handleStop. simpl.
  destruct (stream (this s)) as [sid|] eqn:E; simpl.
  - specialize (L sid eq_refl).
    assert (D : ~ In sid (stoppedTracks (host s)))
      by (eapply NoDup_app_disjoint; eassumption).
    split; [|split; [|discriminate]].
    + apply NoDup_app.
      * apply NoDup_filter. eapply NoDup_app_remove_r. exact N.
      * apply NoDup_app.
        -- eapply NoDup_app_remove_l. exact N.
        -- repeat constructor. simpl. tauto.
        -- intros a Ha [<-|[]]. exact (D Ha).
      * intros a Ha Hb. apply filter_In in Ha. destruct Ha as [Ha Hf].
        apply in_app_or in Hb. destruct Hb as [Hb|[<-|[]]].
        -- exact (NoDup_app_disjoint _ _ a N Ha Hb).
        -- rewrite Nat.eqb_refl in Hf. discriminate.
    + intros x. rewrite <- G. rewrite !in_app_iff, filter_In. simpl.
      destruct (Nat.eqb_spec x sid) as [->|Hx]; simpl; intuition congruence.
  - split; [exact N|]. split; [exact G|discriminate].
Qed.

Lemma iter_handleStop_tracksOk (n : nat) (s : AudioRecorder) :
  tracksOk s -> tracksOk (Nat.iter n handleStop s).
Proof.
  intros H. induction n as [|n IH]; simpl; [exact H|].
  apply handleStop_tracksOk, IH.
Qed.

Lemma tracksOk_same (s s' : AudioRecorder) :
  liveTracks (host s') = liveTracks (host s) ->
  stoppedTracks (host s') = stoppedTracks (host s) ->
  granted (host s') = granted (host s) ->
  stream (this s') = stream (this s) ->
  tracksOk s -> tracksOk s'.
Proof. unfold tracksOk. intros -> -> -> ->. trivial. Qed.

Lemma step_tracksOk (s : AudioRecorder) (e : Event) :
  tracksOk s -> tracksOk (step s e).
Proof.
  intros H. pose proof H as [N [G L]].
  destruct e as [| |p r]; simpl.
  - unfold start. destruct (mediaDevices (host s)); exact H.
  - unfold stop. destruct (starting (this s)) as [p|];
      [|apply handleStop_tracksOk, H].
    destruct (nth_error (promises (host s)) p) as [[| |e]|];
      try exact H. apply handleStop_tracksOk, H.
  - unfold resumeInit.
    destruct (phaseOf p (suspended (host s))) as [ph|]; [|exact H].
    destruct r as [e|]; [exact H|].
    destruct ph.
    + unfold tracksOk. simpl. split; [|split].
      * rewrite <- app_assoc. apply NoDup_app.
        -- eapply NoDup_app_remove_r. exact N.
        -- simpl. constructor.
           ++ intros Hin.
              assert (X : In (granted (host s))
                            (liveTracks (host s) ++ stoppedTracks (host s)))
                by (apply in_or_app; now right).
              apply G in X. lia.
           ++ eapply NoDup_app_remove_l. exact N.
        -- intros a Ha [<-|Hb].
           ++ assert (X : In (granted (host s))
                            (liveTracks (host s) ++ stoppedTracks (host s)))
                by (apply in_or_app; now left).
              apply G in X. lia.
           ++ exact (NoDup_app_disjoint _ _ a N Ha Hb).
      * intros x. specialize (G x). rewrite !in_app_iff in *. simpl.
        split; [intros [[Hx|[<-|[]]]|Hx]|intros Hx]; try lia.
        -- assert (x < granted (host s))%nat by tauto. lia.
        -- assert (x < granted (host s))%nat by tauto. lia.
        -- destruct (Nat.eq_dec x (granted (host s))) as [->|Hn]; [tauto|].
           assert (x < granted (host s))%nat by lia. tauto.
      * intros sid [= <-]. apply in_or_app. right. now left.
    + destruct (stream (this s)) eqn:E; [|exact H].
      revert H. apply tracksOk_same; try reflexivity. simpl. now rewrite E.
    + destruct (source (this s)); exact H.
    + destruct (source (this s)); [|exact H].
      unfold runReactions. apply iter_handleStop_tracksOk. exact H.
Qed.

(** In every interleaving of [start()] and [stop()] calls with the
    resumptions of the initializations in flight, the hardware is accounted
    for: every stream handed out is either live or stopped, never both, and
    no track is stopped twice. *)
Theorem tracks_are_accounted_for (hasMediaDevices : bool) (events : list Event) :
  let s := run events (newAudioRecorder hasMediaDevices) in
  NoDup (liveTracks (host s) ++ stoppedTracks (host s)) /\
  forall x, In x (liveTracks (host s) ++ stoppedTracks (host s))
            <-> (x < granted (host s))%nat.
Proof.
  assert (K : tracksOk (run events (newAudioRecorder hasMediaDevices))).
  { assert (K0 : tracksOk (newAudioRecorder hasMediaDevices)).
    { split; [constructor|]. split; [|discriminate].
      simpl. intros x. split; [contradiction|lia]. }
    revert K0. generalize (newAudioRecorder hasMediaDevices).
    unfold run. induction events as [|e events IH]; intros s K; simpl.
    - exact K.
    - apply IH, step_tracksOk, K. }
  destruct K as [N [G _]]. split; assumption.
Qed.

Lemma filter_idem {A} (f : A -> bool) (l : list A) :
  filter f (filter f l) = filter f l.
Proof.
  induction l as [|a l IH]; simpl; [reflexivity|].
  destruct (f a) eqn:E; simpl; rewrite ?E, IH; reflexivity.
Qed.

Lemma handleStop_idempotent (s : AudioRecorder) :
  handleStop (handleStop s) = handleStop s.
Proof.
  unfold handleStop. simpl.
  destruct (stream (this s)); destruct (source (this s)); simpl;
    rewrite ?filter_idem; reflexivity.
Qed.

(** With no [start()] in flight, a second [stop()] changes nothing: the
    track is stopped by the first call only. *)
Theorem stop_is_idempotent (s : AudioRecorder) :
  starting (this s) = None -> stop (stop s) = stop s.
Proof.
  intros H. unfold stop. rewrite H. simpl. rewrite H.
  apply handleStop_idempotent.
Qed.

Lemma stop_is_idempotent_witness :
  stop (stop (run [CallStart; Resumes 0 None; Resumes 0 None;
                   Resumes 0 None; Resumes 0 None]
                  (newAudioRecorder true)))
  = stop (run [CallStart; Resumes 0 None; Resumes 0 None;
               Resumes 0 None; Resumes 0 None]
              (newAudioRecorder true)).
Proof. apply stop_is_idempotent. reflexivity. Defined.

(** When [start()] fails after the microphone was granted (the audio
    context or a worklet module is refused), its promise is rejected but
    the stream stays in [this.stream] with its track live; a [stop()] made
    while that [start()] was in flight never takes effect.  Only a later
    [stop()] releases the track. *)
Theorem failed_start_keeps_track (k : nat) (e : Failure) (stopAt : bool) :
  (k <= 2)%nat ->
  let s := run (failingStart k e stopAt) (newAudioRecorder true) in
  nth_error (promises (host s)) 0 = Some (Rejected e) /\
  starting (this s) = None /\
  stream (this s) = Some 0%nat /\
  liveTracks (host s) = [0%nat] /\ stoppedTracks (host s) = [] /\
  liveTracks (host (stop s)) = [] /\ stoppedTracks (host (stop s)) = [0%nat].
Proof.
  intros Hk.
  assert (K : (k = 0 \/ k = 1 \/ k = 2)%nat) by lia.
  destruct K as [ -> | [ -> | -> ] ]; destruct stopAt;
    vm_compute; repeat split; reflexivity.
Qed.

Lemma failed_start_keeps_track_witness :
  liveTracks (host (run (failingStart 1 OtherFailure true)
                        (newAudioRecorder true))) = [0%nat].
Proof. apply (failed_start_keeps_track 1 OtherFailure true). lia. Defined.

End CaptureFacts.

(** ** Analytics *)

Section AnalyticsFacts.
Import Analytics.
Variable Props : Type.

(** Pushing on an array that is cut back to its last [keep] elements once
    it has more than [cap]. *)
Lemma capped_push {A} (cap keep : nat) (l hist : list A) (x : A) :
  (keep <= cap)%nat ->
  (exists dropped, hist = dropped ++ l) ->
  (List.length l <= cap)%nat ->
  (Nat.min (List.length hist) keep <= List.length l)%nat ->
  let l' := if (cap <? List.length (l ++ [x]))%nat
            then sliceLast keep (l ++ [x]) else l ++ [x] in
  (exists dropped, hist ++ [x] = dropped ++ l') /\
  (List.length l' <= cap)%nat /\
  (Nat.min (List.length (hist ++ [x])) keep <= List.length l')%nat.
Proof.
  intros K [d ->] C M. cbv zeta.
  rewrite !length_app in *. simpl in *.
  destruct (Nat.ltb_spec cap (List.length l + 1)) as [H|H].
  - unfold sliceLast. rewrite length_skipn, !length_app. simpl.
    split; [|lia].
    exists (d ++ firstn (List.length l + 1 - keep) (l ++ [x])).
    now rewrite <- !app_assoc, firstn_skipn.
  - rewrite length_app. simpl. split; [|lia].
    exists d. now rewrite app_assoc.
Qed.

Lemma perform_logsKept (calls : list (Call Props)) (c : Call Props)
  (s : AnalyticsService Props) :
  logsKept Props calls s -> logsKept Props (calls ++ [c]) (perform Props s c).
Proof.
  intros [[E1 [E2 E3]] [M1 [M2 M3]]].
  unfold logsKept, tracked, measured. rewrite !flat_map_app.
  destruct c as [sid ev props now|sid step time now];
    cbn [flat_map perform trackEvent trackResponseTime events responseMetrics app].
  - split.
    + apply (capped_push 100 50); try assumption. lia.
    + rewrite app_nil_r. fold (measured Props calls). auto.
  - split.
    + rewrite app_nil_r. fold (tracked Props calls). auto.
    + apply (capped_push 50 25); try assumption. lia.
Qed.

(** Over any run of [trackEvent] and [trackResponseTime] calls on a new
    service, the service keeps a suffix of each sequence, in order: never
    more than 100 events and always the 50 most recent ones (all of them
    while there are fewer); never more than 50 response times and always
    the 25 most recent. *)
Theorem logs_keep_the_most_recent (calls : list (Call Props)) :
  let s := fold_left (perform Props) calls (newService Props) in
  ((exists dropped, tracked Props calls = dropped ++ events s) /\
   (List.length (events s) <= 100)%nat /\
   (Nat.min (List.length (tracked Props calls)) 50
    <= List.length (events s))%nat) /\
  ((exists dropped, measured Props calls = dropped ++ responseMetrics s) /\
   (List.length (responseMetrics s) <= 50)%nat /\
   (Nat.min (List.length (measured Props calls)) 25
    <= List.length (responseMetrics s))%nat).
Proof.
  cbv zeta. change (logsKept Props calls (fold_left (perform Props) calls (newService Props))).
  induction calls as [|c calls IH] using rev_ind.
  - simpl. repeat split; try (exists []; reflexivity); simpl; lia.
  - rewrite fold_left_app. simpl. apply perform_logsKept, IH.
Qed.

Lemma insertNewest_perm (x : AnalyticsEvent Props) (l : list (AnalyticsEvent Props)) :
  Permutation (insertNewest Props x l) (x :: l).
Proof.
  induction l as [|y l IH]; simpl; [reflexivity|].
  destruct (timestamp y <=? timestamp x)%Z; [reflexivity|].
  rewrite IH. apply perm_swap.
Qed.

Lemma insertNewest_sorted (x : AnalyticsEvent Props) (l : list (AnalyticsEvent Props)) :
  StronglySorted (newestFirst Props) l ->
  StronglySorted (newestFirst Props) (insertNewest Props x l).
Proof.
  unfold newestFirst.
  induction 1 as [|y l H IH F]; simpl; [repeat constructor|].
  destruct (Z.leb_spec (timestamp y) (timestamp x)) as [L|L].
  { constructor; [constructor; assumption|].
    constructor; [exact L|].
    eapply Forall_impl; [|exact F]. simpl. intros a Ha. lia. }
  constructor; [exact IH|].
  eapply Permutation_Forall; [symmetry; apply (insertNewest_perm x l)|].
  constructor; [lia|exact F].
Qed.

Lemma sortNewestFirst_sorted (l : list (AnalyticsEvent Props)) :
  StronglySorted (newestFirst Props) (sortNewestFirst Props l).
Proof.
  unfold sortNewestFirst.
  induction l as [|x l IH]; simpl; [constructor|].
  apply insertNewest_sorted, IH.
Qed.

Lemma sortNewestFirst_perm (l : list (AnalyticsEvent Props)) :
  Permutation (sortNewestFirst Props l) l.
Proof.
  unfold sortNewestFirst.
  induction l as [|x l IH]; simpl; [reflexivity|].
  rewrite insertNewest_perm. apply perm_skip, IH.
Qed.

Lemma sorted_prefix_newer (l1 l2 : list (AnalyticsEvent Props)) :
  StronglySorted (newestFirst Props) (l1 ++ l2) ->
  forall a b, In a l1 -> In b l2 -> (timestamp b <= timestamp a)%Z.
Proof.
  induction l1 as [|x l1 IH]; simpl; intros O a b Ha Hb; [contradiction|].
  inversion O as [|? ? O' F]; subst. destruct Ha as [ -> |Ha].
  - rewrite Forall_forall in F. apply F. apply in_or_app. now right.
  - exact (IH O' a b Ha Hb).
Qed.

(** [getRecentEvents] reorders the stored events: afterwards the store
    holds the same events, newest first (no longer in the order they were
    tracked), and the result is a prefix of it, with [limit] elements when
    [limit] is not negative and that many are stored. *)
Theorem recent_events_sorts_store (s : AnalyticsService Props) (limit : Z) :
  let s' := fst (getRecentEvents Props limit s) in
  let result := snd (getRecentEvents Props limit s) in
  Permutation (events s') (events s) /\
  StronglySorted (newestFirst Props) (events s') /\
  responseMetrics s' = responseMetrics s /\
  (exists rest,
      events s' = result ++ rest /\
      forall a b, In a result -> In b rest ->
                  (timestamp b <= timestamp a)%Z) /\
  ((0 <= limit)%Z ->
   List.length result = Nat.min (Z.to_nat limit) (List.length (events s))).
Proof.
  cbv zeta. unfold getRecentEvents. cbn [fst snd events responseMetrics].
  pose proof (sortNewestFirst_sorted (events s)) as O.
  pose proof (sortNewestFirst_perm (events s)) as P.
  split; [exact P|]. split; [exact O|split; [reflexivity|split]].
  - assert (G : forall n,
               exists rest,
                 sortNewestFirst Props (events s)
                 = firstn n (sortNewestFirst Props (events s)) ++ rest /\
                 forall a b,
                   In a (firstn n (sortNewestFirst Props (events s))) ->
                   In b rest -> (timestamp b <= timestamp a)%Z).
    { intros n. exists (skipn n (sortNewestFirst Props (events s))).
      split; [symmetry; apply firstn_skipn|].
      apply sorted_prefix_newer. now rewrite firstn_skipn. }
    unfold sliceTo. destruct (limit <? 0)%Z; apply G.
  - intros L. unfold sliceTo.
    destruct (Z.ltb_spec limit 0); [lia|].
    rewrite length_firstn. now rewrite (Permutation_length P).
Qed.

(** On a full store, [trackEvent] after [getRecentEvents] keeps the wrong
    end: the store has been sorted newest first, so the cut to the last 50
    elements keeps the new event and 49 stored ones that are no newer than
    any of the 51 it drops. *)
Theorem trim_after_sort_drops_newest (s : AnalyticsService Props) (limit : Z)
  (sid ev : list N) (props : Props) (now : Z) :
  List.length (events s) = 100%nat ->
  exists dropped kept,
    Permutation (events s) (dropped ++ kept) /\
    events (trackEvent Props sid ev props now
              (fst (getRecentEvents Props limit s)))
    = kept ++ [{| sessionId := sid; event := ev; properties := props;
                  timestamp := now |}] /\
    List.length dropped = 51%nat /\ List.length kept = 49%nat /\
    forall d k, In d dropped -> In k kept -> (timestamp k <= timestamp d)%Z.
Proof.
  intros L.
  pose proof (sortNewestFirst_sorted (events s)) as O.
  pose proof (sortNewestFirst_perm (events s)) as P.
  assert (L' : List.length (sortNewestFirst Props (events s)) = 100%nat)
    by now rewrite (Permutation_length P).
  exists (firstn 51 (sortNewestFirst Props (events s))),
         (skipn 51 (sortNewestFirst Props (events s))).
  split; [rewrite firstn_skipn; now symmetry|]. split.
  { unfold trackEvent, getRecentEvents. cbn [fst events].
    rewrite length_app, L'. cbn [List.length Nat.add Nat.ltb Nat.leb maxEvents].
    unfold sliceLast. rewrite length_app, L'.
    change (100 + List.length [_] - 50)%nat with 51%nat.
    rewrite skipn_app, L'. reflexivity. }
  split; [rewrite length_firstn, L'; reflexivity|].
  split; [rewrite length_skipn, L'; reflexivity|].
  apply sorted_prefix_newer. now rewrite firstn_skipn.
Qed.

End AnalyticsFacts.

Lemma recent_events_sorts_store_witness :
  List.length
    (snd (Analytics.getRecentEvents unit 1
            (fold_left (Analytics.perform unit)
               [Analytics.TrackEvent unit [] [] tt 5;
                Analytics.TrackEvent unit [] [] tt 3]
               (Analytics.newService unit))))
  = Nat.min (Z.to_nat 1)
      (List.length
         (Analytics.events
            (fold_left (Analytics.perform unit)
               [Analytics.TrackEvent unit [] [] tt 5;
                Analytics.TrackEvent unit [] [] tt 3]
               (Analytics.newService unit)))).
Proof.
  apply (recent_events_sorts_store unit
           (fold_left (Analytics.perform unit)
              [Analytics.TrackEvent unit [] [] tt 5;
               Analytics.TrackEvent unit [] [] tt 3]
              (Analytics.newService unit)) 1).
  lia.
Defined.

Lemma trim_after_sort_drops_newest_witness :
  exists dropped kept,
    Permutation
      (Analytics.events
         (fold_left (Analytics.perform unit)
            (map (fun t => Analytics.TrackEvent unit [] [] tt (Z.of_nat t))
                 (seq 0 100))
            (Analytics.newService unit)))
      (dropped ++ kept) /\
    Analytics.events
      (Analytics.trackEvent unit [] [] tt 100
         (fst (Analytics.getRecentEvents unit 10
                 (fold_left (Analytics.perform unit)
                    (map (fun t => Analytics.TrackEvent unit [] [] tt (Z.of_nat t))
                         (seq 0 100))
                    (Analytics.newService unit)))))
    = kept ++ [{| Analytics.sessionId := []; Analytics.event := [];
                  Analytics.properties := tt; Analytics.timestamp := 100%Z |}] /\
    List.length dropped = 51%nat /\ List.length kept = 49%nat /\
    forall d k, In d dropped -> In k kept ->
                (Analytics.timestamp k <= Analytics.timestamp d)%Z.
Proof.
  apply (trim_after_sort_drops_newest unit
           (fold_left (Analytics.perform unit)
              (map (fun t => Analytics.TrackEvent unit [] [] tt (Z.of_nat t))
                   (seq 0 100))
              (Analytics.newService unit)) 10 [] [] tt 100).
  reflexivity.
Defined.

(** ** Audio contexts by id *)

Section ContextCacheFacts.
Import ContextCache.

Lemma sameKey_true (a b : list N) : sameKey a b = true <-> a = b.
Proof.
  unfold sameKey. destruct (list_eq_dec N.eq_dec a b); split;
    auto; discriminate.
Qed.

Lemma mapGet_mapSet (key key' : list N) (v : nat) (m : list (list N * nat)) :
  mapGet key' (mapSet key v m)
  = if sameKey key' key then Some v else mapGet key' m.
Proof.
  induction m as [|[k w] m IH]; simpl.
  - destruct (sameKey key' key); reflexivity.
  - destruct (sameKey key k) eqn:E; simpl.
    + apply sameKey_true in E. subst k.
      destruct (sameKey key' key); reflexivity.
    + rewrite IH. destruct (sameKey key' k) eqn:E'; [|reflexivity].
      apply sameKey_true in E'. subst k.
      destruct (sameKey key' key) eqn:E''; [|reflexivity].
      apply sameKey_true in E''. subst key'.
      assert (X : sameKey key key = true) by now apply sameKey_true.
      congruence.
Qed.

Lemma nth_error_setNth_other {A} (l : list A) (n m : nat) (x : A) :
  n <> m -> nth_error (Recorder.setNth n x l) m = nth_error l m.
Proof.
  revert n m. induction l as [|a l IH]; intros [|n] [|m] H; simpl;
    try reflexivity; try congruence.
  apply IH. congruence.
Qed.

Lemma nth_error_setNth_same {A} (l : list A) (n : nat) (x y : A) :
  nth_error (Recorder.setNth n x l) n = Some y -> y = x.
Proof.
  revert n. induction l as [|a l IH]; intros [|n]; simpl;
    try discriminate.
  - congruence.
  - apply IH.
Qed.

Lemma step_shared (r : Registry) (e : Event) : shared r -> shared (step r e).
Proof.
  intros [B [F W]].
  assert (Set1 : forall call id p,
             (forall key c, p = Fulfilled c -> truthyId id = Some key ->
                            mapGet key (audioContextMap r) = Some c) ->
             (forall key c, p = AwaitResume c -> truthyId id = Some key ->
                            mapGet key (audioContextMap r) = Some c) ->
             shared (setCall call id p r)).
  { intros call id p Hf Hw. split; [exact B|]. split; simpl;
      intros t id' key c H K;
      (destruct (Nat.eq_dec call t) as [<-|Hn];
       [apply nth_error_setNth_same in H; inversion H; subst; eauto
       |rewrite nth_error_setNth_other in H by exact Hn; eauto]). }
  assert (Con : forall call id throws,
             (forall key, truthyId id = Some key ->
                          mapGet key (audioContextMap r) = None) ->
             shared (construct call id throws r)).
  { intros call id throws Hnone. unfold construct. destruct throws.
    - apply Set1; discriminate.
    - assert (G : forall key c,
                 mapGet key (audioContextMap r) = Some c ->
                 mapGet key
                   match truthyId id with
                   | Some k => mapSet k (constructed r) (audioContextMap r)
                   | None => audioContextMap r
                   end = Some c).
      { intros key c H. destruct (truthyId id) as [k|] eqn:T; [|exact H].
        rewrite mapGet_mapSet. destruct (sameKey key k) eqn:E; [|exact H].
        apply sameKey_true in E. subst k. rewrite (Hnone key eq_refl) in H.
        discriminate. }
      split; [|split]; simpl.
      + intros key c H. destruct (truthyId id) as [k|] eqn:T.
        * rewrite mapGet_mapSet in H. destruct (sameKey key k).
          -- inversion H. lia.
          -- apply B in H. lia.
        * apply B in H. lia.
      + intros t id' key c H K.
        destruct (Nat.eq_dec call t) as [<-|Hn].
        * apply nth_error_setNth_same in H. inversion H; subst.
          rewrite K, mapGet_mapSet.
          assert (X : sameKey key key = true) by now apply sameKey_true.
          now rewrite X.
        * rewrite nth_error_setNth_other in H by exact Hn. eauto.
      + intros t id' key c H K.
        destruct (Nat.eq_dec call t) as [<-|Hn].
        * apply nth_error_setNth_same in H. inversion H.
        * rewrite nth_error_setNth_other in H by exact Hn. eauto. }
  destruct e as [id|call suspended throws|call]; simpl.
  - split; [exact B|]. split; simpl; intros t id' key c H K;
      (destruct (Nat.lt_ge_cases t (List.length (calls r))) as [L|L];
       [rewrite nth_error_app1 in H by exact L; eauto
       |rewrite nth_error_app2 in H by exact L;
        destruct (t - List.length (calls r))%nat as [|[|n]];
        simpl in H; discriminate]).
  - destruct (nth_error (calls r) call) as [[id [| | |]]|] eqn:E;
      try (split; [exact B|split; assumption]).
    destruct (truthyId id) as [key|] eqn:T.
    + destruct (mapGet key (audioContextMap r)) as [existing|] eqn:G.
      * destruct suspended; apply Set1; intros k c H K;
          try discriminate; injection H as <-; congruence.
      * apply Con. intros k K. congruence.
    + apply Con. intros k K. congruence.
  - destruct (nth_error (calls r) call) as [[id [|existing| |]]|] eqn:E;
      try (split; [exact B|split; assumption]).
    apply Set1; [|discriminate].
    intros k c H K. injection H as <-. eauto.
Qed.

(** However calls of [audioContext] with and without ids interleave, and
    whether or not the constructor throws for some of them: all calls that
    return for the same non-empty id return the same context.  No two
    contexts are ever handed out for one id. *)
Theorem contexts_are_shared_by_id
  (events : list Event) (call1 call2 : nat) (id1 id2 : option (list N))
  (key : list N) (c1 c2 : nat) :
  let r := run events newRegistry in
  nth_error (calls r) call1 = Some (id1, Fulfilled c1) ->
  nth_error (calls r) call2 = Some (id2, Fulfilled c2) ->
  truthyId id1 = Some key -> truthyId id2 = Some key ->
  c1 = c2.
Proof.
  cbv zeta.
  assert (K : shared (run events newRegistry)).
  { assert (K0 : shared newRegistry).
    { split; [|split]; simpl; intros; try discriminate;
        match goal with H : nth_error [] ?n = _ |- _ =>
          destruct n; discriminate end. }
    revert K0. generalize newRegistry.
    unfold run. induction events as [|e events IH]; intros r K; simpl.
    - exact K.
    - apply IH, step_shared, K. }
  destruct K as [_ [F _]]. intros H1 H2 K1 K2.
  pose proof (F _ _ _ _ H1 K1) as G1.
  pose proof (F _ _ _ _ H2 K2) as G2. congruence.
Qed.

Lemma contexts_are_shared_by_id_witness :
  nth_error
    (calls (run [Calls None; Calls (Some [97%N]); Calls (Some [97%N]);
                 Unlocks 0 false false; Unlocks 2 false false;
                 Unlocks 1 true false; ResumeSettles 1] newRegistry)) 1
  = Some (Some [97%N], Fulfilled 1) /\
  nth_error
    (calls (run [Calls None; Calls (Some [97%N]); Calls (Some [97%N]);
                 Unlocks 0 false false; Unlocks 2 false false;
                 Unlocks 1 true false; ResumeSettles 1] newRegistry)) 2
  = Some (Some [97%N], Fulfilled 1) /\
  1%nat = 1%nat.
Proof.
  split; [reflexivity|]. split; [reflexivity|].
  apply (contexts_are_shared_by_id
           [Calls None; Calls (Some [97%N]); Calls (Some [97%N]);
            Unlocks 0 false false; Unlocks 2 false false;
            Unlocks 1 true false; ResumeSettles 1]
           1 2 (Some [97%N]) (Some [97%N]) [97%N] 1 1); reflexivity.
Defined.

End ContextCacheFacts.
